(** * InfraAnsible: the job service over its tables

    A shallow embedding of [backend/app/services/job_service.py] and of the
    tables of [backend/app/models.py] it works on, with the properties of
    the job life cycle, of the log store and of the statistics.

    Conventions of the embedding:
    - the SQLAlchemy session is an explicit database value [Db] threaded
      through a state-and-exception monad [M]; a raised Python exception is
      the left injection, together with the database as it is persisted at
      that moment;
    - [datetime.utcnow()] and [uuid.uuid4()] are read from the environment:
      every operation that calls them takes the value read ([now], [uuid4])
      as an argument;
    - Python truthiness ([if x:], [not x], [x or y]) is written out with
      [truthy_str], [truthy_int] and [is_Some];
    - a Python [float] is the exact rational value of the double; every
      float operation rounds its exact result to the nearest double, ties
      to even ([fl]). *)

From stdpp Require Import base gmap list strings pretty sorting.
From Stdlib Require Import QArith Lqa Qpower.
From Stdlib Require Import PrimFloat SpecFloat FloatOps.

Open Scope Z_scope.

(** ** Python values *)

(** A JSON object ([extra_vars], audit [details]): keys and values in order. *)
Abbreviation json := (list (string * string)).

(** Exceptions that the modelled code raises, or that the session raises
    on commit. *)
Inductive Exception :=
  | ValueError (msg : string)
  | IntegrityError (msg : string)
  | ProgrammingError (msg : string).

(** [if s:] for an optional string: [None] and [""] are falsy. *)
Definition truthy_str (s : option string) : bool :=
  match s with
  | Some s => negb (String.eqb s "")
  | None => false
  end.

(** [if n:] for an optional integer: [None] and [0] are falsy. *)
Definition truthy_int (n : option Z) : bool :=
  match n with
  | Some n => negb (n =? 0)
  | None => false
  end.

(** ** models.py *)

(** [db.Enum('pending', 'running', 'success', 'failed', 'cancelled')] *)
Inductive JobStatus := pending | running | success | failed | cancelled.

Global Instance JobStatus_eq_dec : EqDecision JobStatus.
Proof. solve_decision. Defined.

Module Playbook.
Record t := mk { id : Z; name : string; is_active : bool }.
End Playbook.

Module Server.
Record t := mk { id : Z; hostname : string; is_active : bool }.
End Server.

Module Job.
Record t := mk {
  id : Z;                          (* primary key *)
  job_id : string;                 (* UUID, unique *)
  playbook_id : Z;
  server_id : Z;
  user_id : Z;
  status : JobStatus;
  celery_task_id : option string;
  extra_vars : json;
  error_message : option string;
  started_at : option Z;
  completed_at : option Z;
  created_at : Z
}.

Definition set_id (v : Z) (j : t) : t :=
  mk v (job_id j) (playbook_id j) (server_id j) (user_id j) (status j)
     (celery_task_id j) (extra_vars j) (error_message j) (started_at j)
     (completed_at j) (created_at j).
Definition set_status (v : JobStatus) (j : t) : t :=
  mk (id j) (job_id j) (playbook_id j) (server_id j) (user_id j) v
     (celery_task_id j) (extra_vars j) (error_message j) (started_at j)
     (completed_at j) (created_at j).
Definition set_celery_task_id (v : option string) (j : t) : t :=
  mk (id j) (job_id j) (playbook_id j) (server_id j) (user_id j) (status j)
     v (extra_vars j) (error_message j) (started_at j)
     (completed_at j) (created_at j).
Definition set_error_message (v : option string) (j : t) : t :=
  mk (id j) (job_id j) (playbook_id j) (server_id j) (user_id j) (status j)
     (celery_task_id j) (extra_vars j) v (started_at j)
     (completed_at j) (created_at j).
Definition set_started_at (v : option Z) (j : t) : t :=
  mk (id j) (job_id j) (playbook_id j) (server_id j) (user_id j) (status j)
     (celery_task_id j) (extra_vars j) (error_message j) v
     (completed_at j) (created_at j).
Definition set_completed_at (v : option Z) (j : t) : t :=
  mk (id j) (job_id j) (playbook_id j) (server_id j) (user_id j) (status j)
     (celery_task_id j) (extra_vars j) (error_message j) (started_at j)
     v (created_at j).
End Job.

Module JobLog.
Record t := mk {
  id : Z;
  job_id : Z;
  line_number : Z;
  content : string;
  log_level : option string;
  timestamp : Z
}.
End JobLog.

Module AuditLog.
Record t := mk {
  id : Z;
  user_id : Z;
  action : string;
  resource_type : string;
  resource_id : Z;
  details : option json;
  timestamp : Z
}.
End AuditLog.

(** ** The database behind [db.session] *)

(** The tables the job service reads and writes.  [jobs], [playbooks] and
    [servers] are keyed by primary key; the two log tables keep their rows
    in insertion order. *)
Record Db := mkDb {
  playbooks : gmap Z Playbook.t;
  servers : gmap Z Server.t;
  jobs : gmap Z Job.t;
  job_logs : list JobLog.t;
  audit_logs : list AuditLog.t
}.

Definition with_jobs (js : gmap Z Job.t) (d : Db) : Db :=
  mkDb (playbooks d) (servers d) js (job_logs d) (audit_logs d).
Definition with_job_logs (ls : list JobLog.t) (d : Db) : Db :=
  mkDb (playbooks d) (servers d) (jobs d) ls (audit_logs d).
Definition with_audit_logs (ls : list AuditLog.t) (d : Db) : Db :=
  mkDb (playbooks d) (servers d) (jobs d) (job_logs d) ls.

(** State and exception monad of the service calls. *)
Definition M (A : Type) : Type := Db → (Exception + A) * Db.

Global Instance M_ret : MRet M := λ A (a : A) d, (inr a, d).
Global Instance M_bind : MBind M := λ A B (f : A → M B) (m : M A) d,
  match m d with
  | (inr a, d') => f a d'
  | (inl e, d') => (inl e, d')
  end.

Definition raise {A} (e : Exception) : M A := λ d, (inl e, d).
Definition query {A} (f : Db → A) : M A := λ d, (inr (f d), d).
Definition modify (f : Db → Db) : M unit := λ d, (inr tt, f d).

(** AUTO_INCREMENT of an integer primary key: one more than the largest
    key in the table (1 on an empty table). *)
Definition next_id {A} (m : gmap Z A) : Z :=
  1 + map_fold (λ k _ acc, Z.max k acc) 0 m.

(** [Model.query.get(pk)] *)
Definition Playbook_query_get (pk : Z) : M (option Playbook.t) :=
  query (λ d, playbooks d !! pk).
Definition Server_query_get (pk : Z) : M (option Server.t) :=
  query (λ d, servers d !! pk).
Definition Job_query_get (pk : Z) : M (option Job.t) :=
  query (λ d, jobs d !! pk).

(** [Job.query]: the rows of the [jobs] table. *)
Definition Job_query (d : Db) : list Job.t := (map_to_list (jobs d)).*2.

(** [db.session.add(job); db.session.commit()] for a new job: the row gets
    the next primary key; the UNIQUE index on [job_id] rejects a token that
    some row already carries, and then nothing is stored.  Foreign keys are
    not checked here: the service validates the playbook and the server
    itself, and the test configuration runs on an engine that does not
    enforce them. *)
Definition session_add_job (j : Job.t) : M Job.t := λ d,
  if bool_decide (Exists (λ r, Job.job_id r = Job.job_id j) (Job_query d))
  then (inl (IntegrityError "Duplicate entry for key jobs.job_id"), d)
  else
    let j := Job.set_id (next_id (jobs d)) j in
    (inr j, with_jobs (<[Job.id j := j]> (jobs d)) d).

(** [db.session.commit()] after attribute assignments on a loaded job: the
    row under the job's primary key is replaced. *)
Definition session_commit_job (j : Job.t) : M unit :=
  modify (λ d, with_jobs (<[Job.id j := j]> (jobs d)) d).

Definition session_add_job_log (l : JobLog.t) : M JobLog.t := λ d,
  let l := JobLog.mk (1 + Z.of_nat (length (job_logs d))) (JobLog.job_id l)
             (JobLog.line_number l) (JobLog.content l) (JobLog.log_level l)
             (JobLog.timestamp l) in
  (inr l, with_job_logs (job_logs d ++ [l]) d).

Definition session_add_audit_log (a : AuditLog.t) : M unit := λ d,
  let a := AuditLog.mk (1 + Z.of_nat (length (audit_logs d)))
             (AuditLog.user_id a) (AuditLog.action a)
             (AuditLog.resource_type a) (AuditLog.resource_id a)
             (AuditLog.details a) (AuditLog.timestamp a) in
  (inr tt, with_audit_logs (audit_logs d ++ [a]) d).

(** ** Numbers and the statistics dictionary *)

(** The integer nearest to a rational, ties to the even one. *)
Definition round_half_even (x : Q) : Z :=
  let n := Qnum x in
  let d := Z.pos (Qden x) in
  let q := n / d in
  match 2 * (n mod d) ?= d with
  | Lt => q
  | Gt => q + 1
  | Eq => if Z.even q then q else q + 1
  end.

(** [2^e] for an integer exponent. *)
Definition pow2 (e : Z) : Q := Qpower 2 e.

(** The binary exponent of a positive rational: the [e] with
    [2^e ≤ x < 2^(e+1)]. *)
Definition binade (x : Q) : Z :=
  let e := Z.log2 (Qnum x) - Z.log2 (Z.pos (Qden x)) in
  if Qle_bool (pow2 e) x then e else e - 1.

(** The double nearest to a positive rational: 53 significant bits, ties
    to the even significand. *)
Definition round_pos (x : Q) : Q :=
  let ulp := pow2 (binade x - 52) in
  Qred (inject_Z (round_half_even (x / ulp)) * ulp).

(** Rounding to IEEE 754 binary64, to nearest, ties to even.  The exponent
    range is left open: a statistic would need more than 2^1000 jobs to
    leave the range of the normal doubles. *)
Definition fl (x : Q) : Q :=
  let x := Qred x in
  match Qnum x with
  | 0 => 0%Q
  | Z.pos _ => round_pos x
  | Z.neg _ => Qred (- round_pos (- x))
  end.

(** The exact value of a primitive double, when it is finite; used to run
    [fl] against the doubles of the kernel. *)
Definition float_value (f : float) : option Q :=
  match Prim2SF f with
  | S754_zero _ => Some 0%Q
  | S754_finite s m e =>
    Some (Qred ((if s then -1 else 1) * inject_Z (Z.pos m) * pow2 e))
  | _ => None
  end.

(** [a / b] on two [int]s: the double nearest to the quotient. *)
Definition int_truediv (a b : Z) : Q := fl (inject_Z a / inject_Z b).

(** [x * y] on two [float]s. *)
Definition float_mul (x y : Q) : Q := fl (x * y).

(** [round(x, ndigits)] on a [float]: the exact value of [x] is rounded to
    [ndigits] decimals, ties to even, and the double nearest to that
    decimal number is returned. *)
Definition py_round (x : Q) (ndigits : Z) : Q :=
  fl (inject_Z (round_half_even (x * inject_Z (10 ^ ndigits)))
      / inject_Z (10 ^ ndigits)).

Module Stats.
(** The dictionary that [get_job_statistics] returns. *)
Record t := mk {
  total : Z;
  pending : Z;
  running : Z;
  success : Z;
  failed : Z;
  cancelled : Z;
  success_rate : Q
}.
End Stats.

(** ** Tickets and users *)

(** [db.Enum('open', 'in_progress', 'resolved', 'closed')] *)
Inductive TicketStatus := open | in_progress | resolved | closed.

(** [db.Enum('low', 'medium', 'high', 'critical')] *)
Inductive TicketPriority := low | medium | high | critical.

Module Ticket.
Record t := mk {
  id : Z;
  ticket_id : string;              (* UUID, unique *)
  job_id : Z;
  created_by : Z;
  title : string;
  description : option string;
  status : TicketStatus;
  priority : TicketPriority;
  created_at : Z;
  updated_at : Z;
  resolved_at : option Z
}.

Definition set_id (v : Z) (x : t) : t :=
  mk v (ticket_id x) (job_id x) (created_by x) (title x) (description x)
     (status x) (priority x) (created_at x) (updated_at x) (resolved_at x).
End Ticket.

Module User.
Record t := mk {
  id : Z;
  username : string;
  email : string;
  password_hash : string;
  role : string;
  is_active : bool
}.
End User.

(** The database together with the [tickets] table. *)
Record Store := mkStore {
  base : Db;
  tickets : gmap Z Ticket.t
}.

(** State and exception monad over [Store], and the calls of [M] in it. *)
Definition MT (A : Type) : Type := Store → (Exception + A) * Store.

Global Instance MT_ret : MRet MT := λ A (a : A) s, (inr a, s).
Global Instance MT_bind : MBind MT := λ A B (f : A → MT B) (m : MT A) s,
  match m s with
  | (inr a, s') => f a s'
  | (inl e, s') => (inl e, s')
  end.

Definition raise_t {A} (e : Exception) : MT A := λ s, (inl e, s).

Definition lift {A} (m : M A) : MT A := λ s,
  let r := m (base s) in (r.1, mkStore r.2 (tickets s)).

(** [Ticket.query]: the rows of the [tickets] table. *)
Definition Ticket_query (s : Store) : list Ticket.t :=
  (map_to_list (tickets s)).*2.

(** [db.session.add(ticket); db.session.commit()]: next primary key, and
    the UNIQUE index on [ticket_id]. *)
Definition session_add_ticket (t : Ticket.t) : MT Ticket.t := λ s,
  if bool_decide (Exists (λ r, Ticket.ticket_id r = Ticket.ticket_id t)
                    (Ticket_query s))
  then (inl (IntegrityError "Duplicate entry for key tickets.ticket_id"), s)
  else
    let t := Ticket.set_id (next_id (tickets s)) t in
    (inr t, mkStore (base s) (<[Ticket.id t := t]> (tickets s))).

(** ** job_service.py *)

Module JobService.

(** [JobService._create_audit_log] *)
Definition _create_audit_log (now : Z) (user_id : Z) (action : string)
    (resource_id : Z) (details : option json) : M unit :=
  session_add_audit_log
    (AuditLog.mk 0 user_id action "job" resource_id details now).

(** [JobService.create_job] *)
Definition create_job (now : Z) (uuid4 : string)
    (playbook_id server_id user_id : Z) (extra_vars : option json)
    : M Job.t :=
  playbook ← Playbook_query_get playbook_id;
  match playbook with
  | Some playbook =>
    if Playbook.is_active playbook then
      server ← Server_query_get server_id;
      match server with
      | Some server =>
        if Server.is_active server then
          let job_id := uuid4 in
          job ← session_add_job
                  (Job.mk 0 job_id playbook_id server_id user_id pending
                     None (default [] extra_vars) None None None now);
          _create_audit_log now user_id "CREATE" (Job.id job)
            (Some [("job_id", job_id);
                   ("playbook", Playbook.name playbook);
                   ("server", Server.hostname server)]);;
          mret job
        else raise (ValueError ("Server with ID " +:+ pretty server_id
                                  +:+ " not found or inactive"))
      | None => raise (ValueError ("Server with ID " +:+ pretty server_id
                                     +:+ " not found or inactive"))
      end
    else raise (ValueError ("Playbook with ID " +:+ pretty playbook_id
                              +:+ " not found or inactive"))
  | None => raise (ValueError ("Playbook with ID " +:+ pretty playbook_id
                                 +:+ " not found or inactive"))
  end.

(** [JobService.get_job] *)
Definition get_job (job_id : Z) : M (option Job.t) := Job_query_get job_id.

(** [JobService.update_job_status].  [not job.started_at] tests for
    [None]: a [datetime] is never falsy. *)
Definition update_job_status (now : Z) (job_id : Z) (status : JobStatus)
    (error_message celery_task_id : option string) : M Job.t :=
  job ← Job_query_get job_id;
  match job with
  | None =>
    raise (ValueError ("Job with ID " +:+ pretty job_id +:+ " not found"))
  | Some job =>
    let job := Job.set_status status job in
    let job := if truthy_str celery_task_id
               then Job.set_celery_task_id celery_task_id job else job in
    let job := if truthy_str error_message
               then Job.set_error_message error_message job else job in
    let job := if bool_decide (status = running)
                  && bool_decide (Job.started_at job = None)
               then Job.set_started_at (Some now) job else job in
    let job := if bool_decide (status ∈ [success; failed; cancelled])
               then Job.set_completed_at (Some now) job else job in
    session_commit_job job;;
    mret job
  end.

(** [JobService.add_job_log].  [log_level = None] stands for the omitted
    argument, which Python replaces by ['INFO']. *)
Definition add_job_log (now : Z) (job_id line_number : Z)
    (content : string) (log_level : option string) : M JobLog.t :=
  session_add_job_log
    (JobLog.mk 0 job_id line_number content
       (Some (default "INFO" log_level)) now).

(** [JobService.add_job_logs_bulk]: one row per dictionary
    [(line_number, content, log_level?)], in the order of the list. *)
Definition add_job_logs_bulk (now : Z) (job_id : Z)
    (logs : list (Z * string * option string)) : M unit :=
  modify (λ d,
    foldl (λ d '(line_number, content, log_level),
             (session_add_job_log
                (JobLog.mk 0 job_id line_number content
                   (Some (default "INFO" log_level)) now) d).2)
          d logs).

(** [ORDER BY job_logs.line_number], ascending; rows with equal numbers
    keep their insertion order. *)
Definition line_le : relation JobLog.t :=
  λ a b, JobLog.line_number a ≤ JobLog.line_number b.

Global Instance line_le_dec : RelDecision line_le.
Proof. intros a b. unfold line_le. apply _. Defined.

Fixpoint insert_by_line (x : JobLog.t) (rows : list JobLog.t)
    : list JobLog.t :=
  match rows with
  | [] => [x]
  | y :: rows' =>
    if decide (line_le x y) then x :: y :: rows'
    else y :: insert_by_line x rows'
  end.

Definition order_by_line_number (rows : list JobLog.t) : list JobLog.t :=
  foldr insert_by_line [] rows.

(** [query.limit(n)] followed by [.all()]: the first [n] rows; MySQL
    rejects a negative row count. *)
Definition limit_all {A} (n : Z) (rows : list A) : M (list A) :=
  if n <? 0 then raise (ProgrammingError "negative LIMIT")
  else mret (take (Z.to_nat n) rows).

(** [JobService.get_job_logs] *)
Definition get_job_logs (job_id : Z) (start_line limit : option Z)
    : M (list JobLog.t) :=
  rows ← query job_logs;
  let query := filter (λ l, JobLog.job_id l = job_id) rows in
  let query := order_by_line_number query in
  let query := if truthy_int start_line
               then filter (λ l, default 0 start_line ≤ JobLog.line_number l)
                      query
               else query in
  if truthy_int limit then limit_all (default 0 limit) query
  else mret query.

(** [JobService.get_job_logs_count] *)
Definition get_job_logs_count (job_id : Z) : M Z :=
  rows ← query job_logs;
  mret (Z.of_nat (length (filter (λ l, JobLog.job_id l = job_id) rows))).

(** [JobService.cancel_job].  The commit inside [_create_audit_log]
    already flushes the assignments to the job; the final commit writes
    the same row. *)
Definition cancel_job (now : Z) (job_id user_id : Z) : M Job.t :=
  job ← Job_query_get job_id;
  match job with
  | None =>
    raise (ValueError ("Job with ID " +:+ pretty job_id +:+ " not found"))
  | Some job =>
    let job := Job.set_status cancelled job in
    let job := Job.set_error_message (Some "Job cancelled by user") job in
    let job := if bool_decide (Job.completed_at job = None)
               then Job.set_completed_at (Some now) job else job in
    _create_audit_log now user_id "CANCEL" (Job.id job)
      (Some [("job_id", Job.job_id job); ("reason", "cancelled_by_user")]);;
    session_commit_job job;;
    mret job
  end.

(** [query.filter_by(status=s).count()] *)
Definition count_status (s : JobStatus) (rows : list Job.t) : Z :=
  Z.of_nat (length (filter (λ j, Job.status j = s) rows)).

(** [JobService.get_job_statistics] *)
Definition get_job_statistics (user_id : option Z) : M Stats.t :=
  rows ← query Job_query;
  let query := if truthy_int user_id
               then filter (λ j, Job.user_id j = default 0 user_id) rows
               else rows in
  let total := Z.of_nat (length query) in
  let pending := count_status pending query in
  let running := count_status running query in
  let success := count_status success query in
  let failed := count_status failed query in
  let cancelled := count_status cancelled query in
  mret (Stats.mk total pending running success failed cancelled
          (if 0 <? total
           then py_round (float_mul (int_truediv (total - failed) total)
                            (inject_Z 100)) 2
           else 0%Q)).

(** [JobService.get_job_by_uuid]: [filter_by(job_id=job_uuid).first()]. *)
Definition get_job_by_uuid (job_uuid : string) : M (option Job.t) :=
  rows ← query Job_query;
  mret (head (filter (λ j, Job.job_id j = job_uuid) rows)).

(** [JobService.create_ticket_from_job].  [priority = None] stands for the
    omitted argument, which Python replaces by ['medium'];
    [description or f"..."] keeps a non-empty description. *)
Definition create_ticket_from_job (now : Z) (uuid4 : string)
    (job_id user_id : Z) (title : string) (description : option string)
    (priority : option TicketPriority) : MT Ticket.t :=
  job ← lift (Job_query_get job_id);
  match job with
  | None =>
    raise_t (ValueError ("Job with ID " +:+ pretty job_id +:+ " not found"))
  | Some job =>
    let ticket_id := uuid4 in
    ticket ← session_add_ticket
               (Ticket.mk 0 ticket_id job_id user_id title
                  (if truthy_str description then description
                   else Some ("Auto-generated ticket for failed job "
                              +:+ Job.job_id job))
                  open (default medium priority) now now None);
    lift (_create_audit_log now user_id "CREATE_TICKET" (Job.id job)
            (Some [("ticket_id", ticket_id); ("job_id", Job.job_id job)]));;
    mret ticket
  end.

End JobService.

(** ** auth_service.py *)

Module AuthService.

(** [role_hierarchy = {'user': 1, 'admin': 2, 'super_admin': 3}] *)
Definition role_hierarchy : gmap string Z :=
  <["user" := 1]> (<["admin" := 2]> (<["super_admin" := 3]> ∅)).

(** [AuthService.check_permission] *)
Definition check_permission (user : User.t) (required_role : string) : bool :=
  let user_level := default 0 (role_hierarchy !! User.role user) in
  let required_level := default 99 (role_hierarchy !! required_role) in
  user_level >=? required_level.

End AuthService.

(** * Vocabulary of the properties *)

(** ** Small tables to run the embedding on *)

(** One active and one retired playbook, one active server, no jobs. *)
Definition db0 : Db :=
  mkDb (<[1 := Playbook.mk 1 "deploy" true]>
          (<[2 := Playbook.mk 2 "retired" false]> ∅))
       (<[1 := Server.mk 1 "web-1" true]> ∅)
       ∅ [] [].

(** A pending job, as [create_job] leaves it. *)
Definition job_pending : Job.t :=
  Job.mk 1 "u-1" 1 1 7 pending None [] None None None 100.

(** A job that ran from 105 to 110 and succeeded. *)
Definition job_done : Job.t :=
  Job.mk 1 "u-1" 1 1 7 success (Some "w-1") [] None (Some 105) (Some 110) 100.

(** The same job once the caller has recorded the worker's task id. *)
Definition job_dispatched : Job.t :=
  Job.mk 1 "u-1" 1 1 7 pending (Some "w-1") [] None None None 100.

Definition db_pending : Db := with_jobs (<[1 := job_pending]> ∅) db0.
Definition db_dispatched : Db := with_jobs (<[1 := job_dispatched]> ∅) db0.
Definition db_done : Db := with_jobs (<[1 := job_done]> ∅) db0.

(** ** The life cycle *)

(** Terminal statuses: [success], [failed], [cancelled]. *)
Definition is_terminal (s : JobStatus) : bool :=
  bool_decide (s ∈ [success; failed; cancelled]).

(** Every row of [jobs] sits under its own primary key. *)
Definition jobs_keyed (d : Db) : Prop :=
  map_Forall (λ k j, Job.id j = k) (jobs d).

Global Instance jobs_keyed_dec d : Decision (jobs_keyed d).
Proof. unfold jobs_keyed. apply _. Defined.

(** The outcome and the database after a call. *)
Definition outcome {A} (r : (Exception + A) * Db) : Exception + A := r.1.
Definition db_after {A} (r : (Exception + A) * Db) : Db := r.2.

Definition raises {A} (r : (Exception + A) * Db) : Prop :=
  ∃ e, outcome r = inl e.

(** The rule as the specification has it, at one call: a job in a terminal
    status makes the call fail and keeps its status and both timestamps. *)
Definition terminal_update_rejected (d : Db) (now jid : Z) (st : JobStatus)
    (em h : option string) : Prop :=
  ∀ job, jobs d !! jid = Some job → is_terminal (Job.status job) = true →
    let r := JobService.update_job_status now jid st em h d in
    raises r
    ∧ ∃ job', jobs (db_after r) !! jid = Some job'
        ∧ Job.status job' = Job.status job
        ∧ Job.started_at job' = Job.started_at job
        ∧ Job.completed_at job' = Job.completed_at job.

(** The rule as the specification has it, at one call: accepted from
    [pending], [running] and [failed] with the three assignments, refused
    from [success] and [cancelled]. *)
Definition cancel_rule (d : Db) (now jid uid : Z) : Prop :=
  ∀ job, jobs d !! jid = Some job →
    let r := JobService.cancel_job now jid uid d in
    if bool_decide (Job.status job ∈ [pending; running; failed])
    then ∃ job', outcome r = inr job'
           ∧ Job.status job' = cancelled
           ∧ Job.error_message job' = Some "Job cancelled by user"
           ∧ Job.completed_at job'
               = Some (default now (Job.completed_at job))
    else raises r.

(** The rule as the specification has it, at one call: a second, different
    handle makes the call fail and the stored handle stays. *)
Definition dispatch_conflict_rejected (d : Db) (now jid : Z)
    (st : JobStatus) (h' : string) : Prop :=
  ∀ job h, jobs d !! jid = Some job →
    Job.celery_task_id job = Some h → h ≠ h' →
    let r := JobService.update_job_status now jid st None (Some h') d in
    raises r
    ∧ Job.celery_task_id <$> jobs (db_after r) !! jid = Some (Some h).

(** The registry checks of [create_job]: the row exists and is active. *)
Definition active_playbook (d : Db) (pk : Z) : bool :=
  from_option Playbook.is_active false (playbooks d !! pk).
Definition active_server (d : Db) (pk : Z) : bool :=
  from_option Server.is_active false (servers d !! pk).

(** No row of [jobs] carries the token [u]. *)
Definition token_free (d : Db) (u : string) : Prop :=
  map_Forall (λ _ j, Job.job_id j ≠ u) (jobs d).

(** The calls that write to [jobs]. *)
Inductive Call :=
  | Create (now : Z) (uuid4 : string) (playbook_id server_id user_id : Z)
      (extra_vars : option json)
  | ApplyStatus (now job_id : Z) (status : JobStatus)
      (error_message celery_task_id : option string)
  | Cancel (now job_id user_id : Z).

(** The database after a call, whether it returned or raised. *)
Definition run_call (c : Call) (d : Db) : Db :=
  match c with
  | Create now uuid4 p s uid ev =>
    db_after (JobService.create_job now uuid4 p s uid ev d)
  | ApplyStatus now jid st em h =>
    db_after (JobService.update_job_status now jid st em h d)
  | Cancel now jid uid => db_after (JobService.cancel_job now jid uid d)
  end.

Definition run_calls (cs : list Call) (d : Db) : Db :=
  foldl (λ d c, run_call c d) d cs.

(** The statement of the specification for one job. *)
Definition completed_iff_terminal (j : Job.t) : Prop :=
  is_Some (Job.completed_at j) ↔ is_terminal (Job.status j) = true.

(** One direction of it, for every row. *)
Definition terminal_completed (d : Db) : Prop :=
  map_Forall (λ _ j, is_terminal (Job.status j) = true →
                     is_Some (Job.completed_at j)) (jobs d).

(** ** The log store *)

(** The rows stored for a job, in insertion order, and their numbers. *)
Definition stored_lines (job_id : Z) (d : Db) : list JobLog.t :=
  filter (λ l, JobLog.job_id l = job_id) (job_logs d).
Definition line_numbers (job_id : Z) (d : Db) : list Z :=
  JobLog.line_number <$> stored_lines job_id d.

(** A run of [add_job_log] calls for one job, each with its clock reading
    and the arguments [line_number], [content], [log_level]. *)
Definition append_all (job_id : Z)
    (calls : list (Z * Z * string * option string)) (d : Db) : Db :=
  foldl (λ d '(now, n, c, lvl),
           db_after (JobService.add_job_log now job_id n c lvl d)) d calls.

(** The lower bound that [start_line] asks for: none when it is absent
    or 0. *)
Definition from_line (start_line : option Z) (l : JobLog.t) : Prop :=
  truthy_int start_line = true → default 0 start_line ≤ JobLog.line_number l.

Global Instance from_line_dec start_line l : Decision (from_line start_line l).
Proof. unfold from_line. apply _. Defined.

(** Job 1 with the three lines of the scenario, numbered 0, 1, 2 by the
    caller. *)
Definition db_logged : Db :=
  append_all 1 [(201, 0, "line-0", None); (202, 1, "line-1", None);
                (203, 2, "line-2", None)] db_pending.

(** The reading in the specification, at one call: the call returns rows,
    all of them numbered from [start_line] (from 0 when it is absent), and
    at most [limit] of them when a limit is given. *)
Definition read_as_specified (jid : Z) (start_line limit : option Z)
    (d : Db) : Prop :=
  ∃ rows, outcome (JobService.get_job_logs jid start_line limit d) = inr rows
    ∧ Forall (λ l, default 0 start_line ≤ JobLog.line_number l) rows
    ∧ ∀ n, limit = Some n → (length rows ≤ Z.to_nat n)%nat.

(** ** Statistics *)

(** The scope of a statistics call: the jobs of one user when [user_id] is
    given and not 0, all jobs otherwise. *)
Definition scoped (user_id : option Z) (j : Job.t) : Prop :=
  truthy_int user_id = true → Job.user_id j = default 0 user_id.

Global Instance scoped_dec user_id j : Decision (scoped user_id j).
Proof. unfold scoped. apply _. Defined.

(** The number of rows of [jobs] with a property, counted on the table. *)
Definition jobs_count (P : Job.t → Prop) `{∀ j, Decision (P j)} (d : Db) : Z :=
  Z.of_nat (size (filter (λ kj : Z * Job.t, P kj.2) (jobs d))).

(** The relative error of one rounding to a double: 2^-53. *)
Definition unit_roundoff : Q := 1 # (2 ^ 53).

(** The share of jobs that did not fail, in percent, before rounding. *)
Definition unfailed_share (total failed : Z) : Q :=
  (inject_Z (total - failed) / inject_Z total * inject_Z 100)%Q.

(** The reading in the specification, at one call: the rate is the share
    itself. *)
Definition rate_is_share (user_id : option Z) (d : Db) : Prop :=
  ∀ s, outcome (JobService.get_job_statistics user_id d) = inr s →
    0 < Stats.total s →
    (Stats.success_rate s == unfailed_share (Stats.total s) (Stats.failed s))%Q.

(** A job of user 7 in status [st], and a [jobs] table made of such
    rows. *)
Definition job_in (st : JobStatus) (id : Z) : Job.t :=
  Job.mk id ("u-" +:+ pretty id) 1 1 7 st None [] None None None 100.

Definition db_of_jobs (js : list Job.t) : Db :=
  with_jobs (list_to_map ((λ j, (Job.id j, j)) <$> js)) db0.

(** Thirty-two jobs, the last of them failed. *)
Definition db_thirty_two : Db :=
  db_of_jobs ((job_in success <$> seqZ 1 31) ++ [job_in failed 32]).

(** What floating point adds to the half unit of the second decimal. *)
Definition float_slack : Q := 1 # (10 ^ 13).

(** The ten jobs of the scenario: seven successes, two failures, one
    cancellation. *)
Definition db_ten : Db :=
  db_of_jobs [job_in success 1; job_in success 2; job_in failed 3;
              job_in success 4; job_in cancelled 5; job_in success 6;
              job_in success 7; job_in failed 8; job_in success 9;
              job_in success 10].

(** ** Further vocabulary *)

(** The fields of a job that identify it and its request. *)
Definition same_identity (j j' : Job.t) : Prop :=
  Job.id j' = Job.id j
  ∧ Job.job_id j' = Job.job_id j
  ∧ Job.playbook_id j' = Job.playbook_id j
  ∧ Job.server_id j' = Job.server_id j
  ∧ Job.user_id j' = Job.user_id j
  ∧ Job.extra_vars j' = Job.extra_vars j
  ∧ Job.created_at j' = Job.created_at j.

(** No two rows of [jobs] carry the same token. *)
Definition tokens_unique (d : Db) : Prop :=
  ∀ k1 k2 j1 j2, jobs d !! k1 = Some j1 → jobs d !! k2 = Some j2 →
    Job.job_id j1 = Job.job_id j2 → k1 = k2.

(** No row of [tickets] carries the token [u]. *)
Definition ticket_token_free (s : Store) (u : string) : Prop :=
  map_Forall (λ _ t, Ticket.ticket_id t ≠ u) (tickets s).

(** A user record with a given role. *)
Definition user_of_role (role : string) : User.t :=
  User.mk 1 "someone" "someone@example.org" "" role true.

(** The store over [db_done] with no tickets. *)
Definition store_done : Store := mkStore db_done ∅.

(** * Properties *)

(** ** Basic facts *)

Ltac run_m :=
  unfold mbind, mret, M_bind, M_ret, raise, query, modify,
    Job_query_get, Playbook_query_get, Server_query_get,
    session_commit_job, JobService._create_audit_log,
    session_add_audit_log; simpl.

Lemma is_terminal_cases s :
  is_terminal s =
  match s with success | failed | cancelled => true | _ => false end.
Proof. by destruct s; vm_compute. Qed.

Lemma is_terminal_true s :
  is_terminal s = true ↔ s = success ∨ s = failed ∨ s = cancelled.
Proof. rewrite is_terminal_cases. destruct s; intuition congruence. Qed.

Lemma next_id_bound {A} (m : gmap Z A) k :
  is_Some (m !! k) → k < next_id m.
Proof.
  unfold next_id.
  apply (map_fold_weak_ind
           (λ r (m : gmap Z A), is_Some (m !! k) → k < 1 + r)).
  - rewrite lookup_empty. by intros [? ?].
  - intros i x m' r _ IH. rewrite lookup_insert.
    case_decide as Hik; [subst; lia|]. intros H. specialize (IH H). lia.
Qed.

Lemma next_id_fresh {A} (m : gmap Z A) : m !! next_id m = None.
Proof.
  destruct (m !! next_id m) eqn:E; [|done].
  assert (next_id m < next_id m) by (apply next_id_bound; eauto). lia.
Qed.

Lemma jobs_keyed_insert d j :
  jobs_keyed d → jobs_keyed (with_jobs (<[Job.id j := j]> (jobs d)) d).
Proof.
  intros Hk. unfold jobs_keyed. simpl. by apply map_Forall_insert_2.
Qed.

(** What [update_job_status] does to a job that exists: the whole row. *)
Lemma update_job_status_found d now jid st em h job :
  jobs d !! jid = Some job →
  ∃ job',
    JobService.update_job_status now jid st em h d
      = (inr job', with_jobs (<[Job.id job := job']> (jobs d)) d)
    ∧ Job.id job' = Job.id job
    ∧ Job.job_id job' = Job.job_id job
    ∧ Job.status job' = st
    ∧ Job.celery_task_id job'
        = (if truthy_str h then h else Job.celery_task_id job)
    ∧ Job.error_message job'
        = (if truthy_str em then em else Job.error_message job)
    ∧ Job.started_at job'
        = (if bool_decide (st = running ∧ Job.started_at job = None)
           then Some now else Job.started_at job)
    ∧ Job.completed_at job'
        = (if is_terminal st then Some now else Job.completed_at job).
Proof.
  intros Hj. unfold JobService.update_job_status. run_m. rewrite Hj.
  fold (is_terminal st).
  destruct (truthy_str h), (truthy_str em), (is_terminal st); simpl;
    repeat case_bool_decide; simpl;
    (eexists; split; [reflexivity|]); simpl;
    split_and!; try done; intuition congruence.
Qed.

Lemma update_job_status_missing d now jid st em h :
  jobs d !! jid = None →
  JobService.update_job_status now jid st em h d
    = (inl (ValueError ("Job with ID " +:+ pretty jid +:+ " not found")), d).
Proof. intros Hj. unfold JobService.update_job_status. run_m. by rewrite Hj. Qed.

(** What [cancel_job] does to a job that exists. *)
Lemma cancel_job_found d now jid uid job :
  jobs d !! jid = Some job →
  ∃ job' d',
    JobService.cancel_job now jid uid d = (inr job', d')
    ∧ jobs d' = <[Job.id job := job']> (jobs d)
    ∧ job_logs d' = job_logs d
    ∧ length (audit_logs d') = S (length (audit_logs d))
    ∧ Job.id job' = Job.id job
    ∧ Job.job_id job' = Job.job_id job
    ∧ Job.status job' = cancelled
    ∧ Job.celery_task_id job' = Job.celery_task_id job
    ∧ Job.error_message job' = Some "Job cancelled by user"
    ∧ Job.started_at job' = Job.started_at job
    ∧ Job.completed_at job' = Some (default now (Job.completed_at job)).
Proof.
  intros Hj. unfold JobService.cancel_job. run_m. rewrite Hj.
  case_bool_decide as Hc; simpl;
    (eexists _, _; split; [reflexivity|]); simpl;
    rewrite ?length_app; simpl; split_and!; try done; try lia.
  - by rewrite Hc.
  - by destruct (Job.completed_at job).
Qed.

Lemma cancel_job_missing d now jid uid :
  jobs d !! jid = None →
  JobService.cancel_job now jid uid d
    = (inl (ValueError ("Job with ID " +:+ pretty jid +:+ " not found")), d).
Proof. intros Hj. unfold JobService.cancel_job. run_m. by rewrite Hj. Qed.

Lemma update_job_status_keyed d now jid st em h :
  jobs_keyed d →
  jobs_keyed (db_after (JobService.update_job_status now jid st em h d)).
Proof.
  intros Hk. destruct (jobs d !! jid) as [job|] eqn:Hj.
  - destruct (update_job_status_found d now jid st em h job Hj)
      as (job' & -> & Hid & _).
    unfold db_after. simpl. rewrite <- Hid. by apply jobs_keyed_insert.
  - by rewrite update_job_status_missing.
Qed.

Lemma cancel_job_keyed d now jid uid :
  jobs_keyed d → jobs_keyed (db_after (JobService.cancel_job now jid uid d)).
Proof.
  intros Hk. destruct (jobs d !! jid) as [job|] eqn:Hj.
  - destruct (cancel_job_found d now jid uid job Hj)
      as (job' & d' & -> & Hd' & _ & _ & Hid & _).
    unfold db_after, jobs_keyed. simpl. rewrite Hd', <- Hid.
    by apply map_Forall_insert_2.
  - by rewrite cancel_job_missing.
Qed.

(** ** ApplyStatus on a terminal job *)

(** C1, counterexample: a late [running] callback on a job that has
    succeeded is applied, not rejected. *)
Lemma terminal_update_applied :
  ¬ terminal_update_rejected db_done 120 1 running None None.
Proof.
  intros H. destruct (H job_done) as [[e He] _]; [done..|].
  vm_compute in He. discriminate.
Qed.

(** C1, as the code has it: [update_job_status] on a job that exists
    succeeds whatever the current status, terminal or not.  It stores the
    requested status, sets [started_at] to the clock when the new status is
    [running] and [started_at] is unset and leaves it otherwise, and leaves
    [completed_at] as it is when the new status is [pending] or
    [running]. *)
Theorem update_job_status_from_any_status d now jid st em h job :
  jobs_keyed d → jobs d !! jid = Some job →
  ∃ job',
    JobService.update_job_status now jid st em h d
      = (inr job', with_jobs (<[jid := job']> (jobs d)) d)
    ∧ Job.status job' = st
    ∧ Job.started_at job'
        = (if bool_decide (st = running ∧ Job.started_at job = None)
           then Some now else Job.started_at job)
    ∧ (is_terminal st = false →
       Job.completed_at job' = Job.completed_at job).
Proof.
  intros Hk Hj.
  destruct (update_job_status_found d now jid st em h job Hj)
    as (job' & Hrun & _ & _ & Hst & _ & _ & Hs & Hc).
  rewrite (Hk _ _ Hj) in Hrun. exists job'. split_and!; try done.
  intros Hnt. by rewrite Hnt in Hc.
Qed.

Lemma update_job_status_from_any_status_witness :
  ∃ job',
    JobService.update_job_status 120 1 running None None db_done
      = (inr job', with_jobs (<[1 := job']> (jobs db_done)) db_done)
    ∧ Job.status job' = running
    ∧ Job.started_at job'
        = (if bool_decide (running = running ∧ Job.started_at job_done = None)
           then Some 120 else Job.started_at job_done)
    ∧ (is_terminal running = false →
       Job.completed_at job' = Job.completed_at job_done).
Proof.
  apply (update_job_status_from_any_status db_done 120 1 running None None
           job_done).
  - by apply (bool_decide_unpack (jobs_keyed db_done)).
  - reflexivity.
Defined.

(** ** Cancel *)

(** The rule does not hold of [cancel_job]: cancelling a job that has
    succeeded is accepted. *)
Lemma cancel_of_success_accepted : ¬ cancel_rule db_done 120 1 7.
Proof.
  intros H. specialize (H job_done eq_refl). simpl in H.
  destruct H as [e He]. vm_compute in He. discriminate.
Qed.

(** What [cancel_job] does, as it is written: it looks at no status.  It
    returns exactly when the job exists; the only failure is the
    [ValueError] for an unknown id, which leaves the database as it was.
    When it returns, the status is [cancelled], the error message is the
    fixed text ["Job cancelled by user"], and [completed_at] is the clock
    if it was unset and its old value otherwise. *)
Theorem cancel_job_from_any_status d now jid uid :
  jobs_keyed d →
  match jobs d !! jid with
  | None =>
    ∃ msg, JobService.cancel_job now jid uid d = (inl (ValueError msg), d)
  | Some job =>
    ∃ job' d',
      JobService.cancel_job now jid uid d = (inr job', d')
      ∧ jobs d' = <[jid := job']> (jobs d)
      ∧ Job.status job' = cancelled
      ∧ Job.error_message job' = Some "Job cancelled by user"
      ∧ Job.completed_at job' = Some (default now (Job.completed_at job))
  end.
Proof.
  intros Hk. destruct (jobs d !! jid) as [job|] eqn:Hj.
  - destruct (cancel_job_found d now jid uid job Hj)
      as (job' & d' & Hrun & Hd' & _ & _ & _ & _ & Hst & _ & Hem & _ & Hc).
    rewrite (Hk _ _ Hj) in Hd'. by exists job', d'.
  - eexists. by apply cancel_job_missing.
Qed.

Lemma cancel_job_from_any_status_witness :
  ∃ job' d',
    JobService.cancel_job 120 1 7 db_done = (inr job', d')
    ∧ jobs d' = <[1 := job']> (jobs db_done)
    ∧ Job.status job' = cancelled
    ∧ Job.error_message job' = Some "Job cancelled by user"
    ∧ Job.completed_at job' = Some 110.
Proof.
  apply (cancel_job_from_any_status db_done 120 1 7).
  by apply (bool_decide_unpack (jobs_keyed db_done)).
Defined.

(** C2, at the failing input: job 1 has succeeded (status [success],
    completed at 110) and user 7 cancels it at clock 120.  The rule, which
    the cancel endpoint documents as "Cancel a running, pending, or failed
    job", refuses this call; [cancel_job] returns the job instead, with
    status [cancelled], the error message ["Job cancelled by user"] and the
    completion time 110 kept, and stores it. *)
Example cancel_of_succeeded_job_goes_through :
  Job.status job_done = success
  ∧ ∃ job' d',
      JobService.cancel_job 120 1 7 db_done = (inr job', d')
      ∧ jobs d' !! 1 = Some job'
      ∧ Job.status job' = cancelled
      ∧ Job.error_message job' = Some "Job cancelled by user"
      ∧ Job.completed_at job' = Some 110.
Proof.
  split; [done|].
  destruct (cancel_job_found db_done 120 1 7 job_done eq_refl)
    as (job' & d' & Hr & Hd' & _ & _ & _ & _ & Hst & _ & Hem & _ & Hc).
  exists job', d'. split_and!; try done.
  rewrite Hd'. apply lookup_insert_eq.
Qed.

(** ** Re-delivery of a status *)

(** Two deliveries of the same status, at clock readings [now] and [now']:
    the second leaves status, task id, error message and [started_at] as
    the first left them, and moves [completed_at] to the second reading
    when the status is terminal. *)
Lemma update_job_status_redelivered d now now' jid st em h job :
  jobs_keyed d → jobs d !! jid = Some job →
  ∃ j1 d1 j2 d2,
    JobService.update_job_status now jid st em h d = (inr j1, d1)
    ∧ JobService.update_job_status now' jid st em h d1 = (inr j2, d2)
    ∧ jobs d1 !! jid = Some j1 ∧ jobs d2 !! jid = Some j2
    ∧ Job.status j2 = Job.status j1
    ∧ Job.celery_task_id j2 = Job.celery_task_id j1
    ∧ Job.error_message j2 = Job.error_message j1
    ∧ Job.started_at j2 = Job.started_at j1
    ∧ Job.completed_at j2
        = (if is_terminal st then Some now' else Job.completed_at j1).
Proof.
  intros Hk Hj.
  destruct (update_job_status_found d now jid st em h job Hj)
    as (j1 & Hr1 & Hid1 & _ & Hst1 & Hh1 & Hem1 & Hs1 & Hc1).
  rewrite (Hk _ _ Hj) in Hr1.
  set (d1 := with_jobs (<[jid := j1]> (jobs d)) d) in *.
  assert (Hj1 : jobs d1 !! jid = Some j1) by apply lookup_insert_eq.
  destruct (update_job_status_found d1 now' jid st em h j1 Hj1)
    as (j2 & Hr2 & Hid2 & _ & Hst2 & Hh2 & Hem2 & Hs2 & Hc2).
  exists j1, d1, j2, (with_jobs (<[Job.id j1:=j2]> (jobs d1)) d1).
  split_and!; try done.
  - rewrite Hid1, (Hk _ _ Hj). simpl. apply lookup_insert_eq.
  - congruence.
  - rewrite Hh2, Hh1. by destruct (truthy_str h).
  - rewrite Hem2, Hem1. by destruct (truthy_str em).
  - rewrite Hs2, Hs1. repeat case_bool_decide; try done; intuition congruence.
Qed.

(** C3, at the failing input: a pending job gets [success] delivered at
    clock 110 and again at clock 120; the second delivery replaces the
    completion time that the first one stored. *)
Example redelivered_success_restamps_completed_at :
  let once :=
    db_after (JobService.update_job_status 110 1 success None None
                db_pending) in
  let twice :=
    db_after (JobService.update_job_status 120 1 success None None once) in
  Job.completed_at <$> jobs once !! 1 = Some (Some 110)
  ∧ Job.completed_at <$> jobs twice !! 1 = Some (Some 120)
  ∧ Job.status <$> jobs twice !! 1 = Job.status <$> jobs once !! 1.
Proof. by vm_compute. Qed.

(** ** Recording the worker's task id *)

(** C5, counterexample: a job dispatched as ["w-1"] takes ["w-2"]. *)
Lemma second_handle_overwrites :
  ¬ dispatch_conflict_rejected db_dispatched 120 1 pending "w-2".
Proof.
  intros H. destruct (H job_dispatched "w-1") as [[e He] _]; [done..|].
  vm_compute in He. discriminate.
Qed.

(** C5, as the code has it: [update_job_status] with a non-empty
    [celery_task_id] succeeds on every job that exists and stores that
    handle, whatever handle was stored before; calling it again with the
    same handle succeeds again and the stored handle is still that one. *)
Theorem record_dispatch_overwrites d now now' jid st em h job :
  jobs_keyed d → jobs d !! jid = Some job → h ≠ "" →
  ∃ j1 d1 j2 d2,
    JobService.update_job_status now jid st em (Some h) d = (inr j1, d1)
    ∧ jobs d1 !! jid = Some j1
    ∧ Job.celery_task_id j1 = Some h
    ∧ JobService.update_job_status now' jid st em (Some h) d1 = (inr j2, d2)
    ∧ jobs d2 !! jid = Some j2
    ∧ Job.celery_task_id j2 = Some h.
Proof.
  intros Hk Hj Hh.
  destruct (update_job_status_redelivered d now now' jid st em (Some h) job
              Hk Hj)
    as (j1 & d1 & j2 & d2 & Hr1 & Hr2 & Hj1 & Hj2 & _ & Hh2 & _).
  destruct (update_job_status_found d now jid st em (Some h) job Hj)
    as (j1' & Hr1' & _ & _ & _ & Hh1 & _).
  assert (j1' = j1) as -> by congruence.
  assert (Ht : truthy_str (Some h) = true).
  { simpl. by destruct (String.eqb_spec h ""). }
  rewrite Ht in Hh1.
  exists j1, d1, j2, d2. split_and!; try done. congruence.
Qed.

Lemma record_dispatch_overwrites_witness :
  ∃ j1 d1 j2 d2,
    JobService.update_job_status 120 1 pending None (Some "w-2") db_dispatched
      = (inr j1, d1)
    ∧ jobs d1 !! 1 = Some j1
    ∧ Job.celery_task_id j1 = Some "w-2"
    ∧ JobService.update_job_status 130 1 pending None (Some "w-2") d1
        = (inr j2, d2)
    ∧ jobs d2 !! 1 = Some j2
    ∧ Job.celery_task_id j2 = Some "w-2".
Proof.
  apply (record_dispatch_overwrites db_dispatched 120 130 1 pending None
           "w-2" job_dispatched).
  - by apply (bool_decide_unpack (jobs_keyed db_dispatched)).
  - reflexivity.
  - discriminate.
Defined.

(** ** Create *)

Lemma token_free_rows d u :
  token_free d u ↔ ¬ Exists (λ r, Job.job_id r = u) (Job_query d).
Proof.
  unfold token_free, Job_query. rewrite Exists_exists. split.
  - intros Hf (j & Hin & Hu). apply list_elem_of_fmap in Hin as ([k j'] & -> & Hin).
    apply elem_of_map_to_list in Hin. by apply (Hf k j').
  - intros Hn k j Hj Hu. apply Hn. exists j. split; [|done].
    apply list_elem_of_fmap. exists (k, j). split; [done|].
    by apply elem_of_map_to_list.
Qed.

(** The two ways [create_job] can end. *)
Lemma create_job_cases now uuid4 p s uid ev d :
  (∃ e, JobService.create_job now uuid4 p s uid ev d = (inl e, d)
        ∧ (active_playbook d p = false ∨ active_server d s = false
           ∨ ¬ token_free d uuid4)
        ∧ (active_playbook d p = false ∨ active_server d s = false
           → ∃ msg, e = ValueError msg))
  ∨ (∃ job d',
        JobService.create_job now uuid4 p s uid ev d = (inr job, d')
        ∧ active_playbook d p = true ∧ active_server d s = true
        ∧ token_free d uuid4
        ∧ jobs d' = <[Job.id job := job]> (jobs d)
        ∧ jobs d !! Job.id job = None
        ∧ job_logs d' = job_logs d
        ∧ job = Job.mk (next_id (jobs d)) uuid4 p s uid pending None
                  (default [] ev) None None None now).
Proof.
  unfold JobService.create_job, active_playbook, active_server. run_m.
  destruct (playbooks d !! p) as [pb|]; simpl;
    [destruct (Playbook.is_active pb)|]; simpl;
    try (left; eexists; split_and!; [reflexivity|by left|by eexists]).
  destruct (servers d !! s) as [sv|]; simpl;
    [destruct (Server.is_active sv)|]; simpl;
    try (left; eexists; split_and!;
         [reflexivity|by right; left|by eexists]).
  unfold session_add_job. simpl. case_bool_decide as Hu.
  - left. eexists. split_and!; [reflexivity| |intros [?|?]; done].
    right; right. rewrite token_free_rows. intros Hn. by apply Hn.
  - right. eexists _, _. split_and!; try reflexivity.
    + by rewrite token_free_rows.
    + simpl. apply next_id_fresh.
Qed.

Lemma create_job_keyed now uuid4 p s uid ev d :
  jobs_keyed d →
  jobs_keyed (db_after (JobService.create_job now uuid4 p s uid ev d)).
Proof.
  intros Hk.
  destruct (create_job_cases now uuid4 p s uid ev d)
    as [(e & -> & _)|(job & d' & -> & _ & _ & _ & Hd' & _)]; [done|].
  unfold db_after, jobs_keyed. simpl. rewrite Hd'.
  by apply map_Forall_insert_2.
Qed.

(** C7: [create_job] raises (a [ValueError], the code's exception for the
    specification's [ReferenceError]) whenever the playbook is missing or
    inactive or the server is missing or inactive, and then the database is
    exactly as before: no job row, and nothing else, is stored.  When it
    returns a job, that job is stored under a fresh primary key with status
    [pending] and the token drawn from [uuid4], which no other row carries;
    and it does return when both references are active and the token is
    not taken. *)
Theorem create_job_checks_references now uuid4 p s uid ev d :
  let r := JobService.create_job now uuid4 p s uid ev d in
  (active_playbook d p = false ∨ active_server d s = false →
     ∃ msg, r = (inl (ValueError msg), d))
  ∧ (∀ job, outcome r = inr job →
       Job.status job = pending
       ∧ Job.job_id job = uuid4
       ∧ jobs d !! Job.id job = None
       ∧ jobs (db_after r) = <[Job.id job := job]> (jobs d)
       ∧ ∀ k j, jobs (db_after r) !! k = Some j →
                Job.job_id j = uuid4 → k = Job.id job)
  ∧ (active_playbook d p = true → active_server d s = true →
     token_free d uuid4 → ∃ job, outcome r = inr job).
Proof.
  simpl.
  destruct (create_job_cases now uuid4 p s uid ev d)
    as [(e & -> & Hwhy & Hval)
       |(job & d' & -> & Hp & Hs & Hfree & Hd' & Hnew & _ & Hjob)].
  - split_and!.
    + intros H. destruct (Hval H) as [msg ->]. by exists msg.
    + intros job. unfold outcome. simpl. discriminate.
    + intros Hp Hs Hf. destruct Hwhy as [?|[?|?]]; congruence.
  - split_and!.
    + intros [?|?]; congruence.
    + intros job' [= <-]. unfold db_after. simpl.
      split_and!; try done; try by rewrite Hjob.
      intros k j. rewrite Hd', lookup_insert. case_decide; [done|].
      intros Hj Hu. by destruct (Hfree k j Hj).
    + intros _ _ _. by exists job.
Qed.

Lemma create_job_checks_references_witness :
  (∃ msg, JobService.create_job 100 "u-1" 2 1 7 None db0
          = (inl (ValueError msg), db0))
  ∧ (∃ job, outcome (JobService.create_job 100 "u-1" 1 1 7 None db0)
            = inr job)
  ∧ Job.status job_pending = pending.
Proof.
  split_and!.
  - apply (proj1 (create_job_checks_references 100 "u-1" 2 1 7 None db0)).
    left. reflexivity.
  - apply (proj2 (proj2
             (create_job_checks_references 100 "u-1" 1 1 7 None db0)));
      [reflexivity..|].
    apply (bool_decide_unpack (token_free db0 "u-1")). reflexivity.
  - apply (proj1 (proj2
             (create_job_checks_references 100 "u-1" 1 1 7 None db0))
             job_pending).
    reflexivity.
Defined.

(** ** [completed_at] along the life of a job *)

Lemma run_call_keyed c d : jobs_keyed d → jobs_keyed (run_call c d).
Proof.
  destruct c; simpl;
    auto using create_job_keyed, update_job_status_keyed, cancel_job_keyed.
Qed.

Lemma run_call_terminal_completed c d :
  terminal_completed d → terminal_completed (run_call c d).
Proof.
  intros Hinv. destruct c as [now u p s uid ev|now jid st em h|now jid uid];
    simpl.
  - destruct (create_job_cases now u p s uid ev d)
      as [(e & -> & _)|(job & d' & -> & _ & _ & _ & Hd' & _ & _ & Hjob)];
      [done|].
    unfold db_after, terminal_completed. simpl. rewrite Hd'.
    apply map_Forall_insert_2; [|done]. by rewrite Hjob.
  - destruct (jobs d !! jid) as [job|] eqn:Hj.
    + destruct (update_job_status_found d now jid st em h job Hj)
        as (job' & -> & _ & _ & Hst & _ & _ & _ & Hc).
      unfold db_after, terminal_completed. simpl.
      apply map_Forall_insert_2; [|done].
      rewrite Hst, Hc. by intros ->.
    + by rewrite update_job_status_missing.
  - destruct (jobs d !! jid) as [job|] eqn:Hj.
    + destruct (cancel_job_found d now jid uid job Hj)
        as (job' & d' & -> & Hd' & _ & _ & _ & _ & _ & _ & _ & _ & Hc).
      unfold db_after, terminal_completed. simpl. rewrite Hd'.
      apply map_Forall_insert_2; [|done]. rewrite Hc. by eexists.
    + by rewrite cancel_job_missing.
Qed.

Lemma run_calls_invariants cs d :
  jobs_keyed d → terminal_completed d →
  jobs_keyed (run_calls cs d) ∧ terminal_completed (run_calls cs d).
Proof.
  revert d. induction cs as [|c cs IH]; intros d Hk Ht; [done|].
  simpl. apply IH; auto using run_call_keyed, run_call_terminal_completed.
Qed.

(** A row with [completed_at] set keeps a [completed_at] through any call,
    and keeps its value unless the call is an [ApplyStatus] of a terminal
    status to that very job. *)
Lemma run_call_completed_at c d jid job t :
  jobs_keyed d → jobs d !! jid = Some job → Job.completed_at job = Some t →
  ∃ job', jobs (run_call c d) !! jid = Some job'
    ∧ is_Some (Job.completed_at job')
    ∧ ((∀ now st em h, c = ApplyStatus now jid st em h →
                       is_terminal st = false) →
       Job.completed_at job' = Some t).
Proof.
  intros Hk Hj Ht.
  destruct c as [now u p s uid ev|now jid' st em h|now jid' uid]; simpl.
  - destruct (create_job_cases now u p s uid ev d)
      as [(e & -> & _)|(new & d' & -> & _ & _ & _ & Hd' & Hnew & _)].
    + exists job. by rewrite Ht.
    + exists job. unfold db_after. simpl. rewrite Hd', Ht.
      split_and!; [|done..]. rewrite lookup_insert_ne; [done|congruence].
  - destruct (decide (jid' = jid)) as [->|Hne].
    + destruct (update_job_status_found d now jid st em h job Hj)
        as (job' & -> & _ & _ & _ & _ & _ & _ & Hc).
      exists job'. unfold db_after. simpl. rewrite (Hk _ _ Hj), Hc, Ht.
      split_and!.
      * apply lookup_insert_eq.
      * by destruct (is_terminal st).
      * intros Hnt. by rewrite (Hnt now st em h eq_refl).
    + exists job. rewrite Ht. split_and!; [|done..].
      destruct (jobs d !! jid') as [other|] eqn:Ho.
      * destruct (update_job_status_found d now jid' st em h other Ho)
          as (job' & -> & _).
        unfold db_after. simpl. rewrite (Hk _ _ Ho).
        by rewrite lookup_insert_ne.
      * by rewrite update_job_status_missing.
  - destruct (decide (jid' = jid)) as [->|Hne].
    + destruct (cancel_job_found d now jid uid job Hj)
        as (job' & d' & -> & Hd' & _ & _ & _ & _ & _ & _ & _ & _ & Hc).
      exists job'. unfold db_after. simpl.
      rewrite Hd', (Hk _ _ Hj), Hc, Ht. simpl.
      split_and!; [apply lookup_insert_eq|done..].
    + exists job. rewrite Ht. split_and!; [|done..].
      destruct (jobs d !! jid') as [other|] eqn:Ho.
      * destruct (cancel_job_found d now jid' uid other Ho)
          as (job' & d' & -> & Hd' & _).
        unfold db_after. simpl. rewrite Hd', (Hk _ _ Ho).
        by rewrite lookup_insert_ne.
      * by rewrite cancel_job_missing.
Qed.

(** C4, counterexample: a job is created, succeeds at 110 and gets a late
    [running] callback at 120; it is then [running] with the completion
    time 110 still stored, so [completed_at] is set on a job whose status
    is not terminal. *)
Lemma completed_at_on_running_job :
  ¬ (∀ j, jobs (run_calls [Create 100 "u-1" 1 1 7 None;
                           ApplyStatus 110 1 success None None;
                           ApplyStatus 120 1 running None None] db0) !! 1
          = Some j → completed_iff_terminal j).
Proof.
  intros H.
  destruct (H (Job.mk 1 "u-1" 1 1 7 running None [] None (Some 120)
                 (Some 110) 100)) as [Hfwd _]; [by vm_compute|].
  by specialize (Hfwd (ex_intro _ 110 eq_refl)).
Qed.

(** C4, as the code has it.  In every database built from an empty [jobs]
    table by [create_job], [update_job_status] and [cancel_job] calls, a
    job in a terminal status has [completed_at] set (the converse fails,
    see above).  Once [completed_at] is set it stays set through every
    later call, and its value is the same after [create_job], after
    [cancel_job], after an [update_job_status] for another job and after an
    [update_job_status] with status [pending] or [running]. *)
Theorem completed_at_life_cycle :
  (∀ cs d jid job,
     jobs d = ∅ → jobs (run_calls cs d) !! jid = Some job →
     is_terminal (Job.status job) = true → is_Some (Job.completed_at job))
  ∧ (∀ cs c d jid job t,
       jobs d = ∅ →
       jobs (run_calls cs d) !! jid = Some job →
       Job.completed_at job = Some t →
       ∃ job', jobs (run_call c (run_calls cs d)) !! jid = Some job'
         ∧ is_Some (Job.completed_at job')
         ∧ ((∀ now st em h, c = ApplyStatus now jid st em h →
                            is_terminal st = false) →
            Job.completed_at job' = Some t)).
Proof.
  assert (Hinit : ∀ d, jobs d = ∅ → jobs_keyed d ∧ terminal_completed d).
  { intros d Hd. unfold jobs_keyed, terminal_completed. rewrite Hd.
    split; apply map_Forall_empty. }
  split.
  - intros cs d jid job Hd Hj.
    destruct (Hinit d Hd) as [Hk Ht].
    destruct (run_calls_invariants cs d Hk Ht) as [_ Hinv].
    by apply (Hinv jid job).
  - intros cs c d jid job t Hd Hj Hc.
    destruct (Hinit d Hd) as [Hk Ht].
    destruct (run_calls_invariants cs d Hk Ht) as [Hk' _].
    by apply (run_call_completed_at c _ jid job t).
Qed.

Lemma completed_at_life_cycle_witness :
  is_Some (Some 110)
  ∧ ∃ job',
      jobs (run_call (Cancel 130 1 7)
              (run_calls [Create 100 "u-1" 1 1 7 None;
                          ApplyStatus 110 1 failed (Some "boom") None] db0))
        !! 1 = Some job'
      ∧ is_Some (Job.completed_at job')
      ∧ ((∀ now st em h, Cancel 130 1 7 = ApplyStatus now 1 st em h →
                         is_terminal st = false) →
         Job.completed_at job' = Some 110).
Proof.
  split.
  - apply (proj1 completed_at_life_cycle
             [Create 100 "u-1" 1 1 7 None;
              ApplyStatus 110 1 failed (Some "boom") None] db0 1
             (Job.mk 1 "u-1" 1 1 7 failed None [] (Some "boom") None
                (Some 110) 100)).
    + reflexivity.
    + vm_compute. reflexivity.
    + reflexivity.
  - apply (proj2 completed_at_life_cycle
             [Create 100 "u-1" 1 1 7 None;
              ApplyStatus 110 1 failed (Some "boom") None]
             (Cancel 130 1 7) db0 1
             (Job.mk 1 "u-1" 1 1 7 failed None [] (Some "boom") None
                (Some 110) 100) 110).
    + reflexivity.
    + vm_compute. reflexivity.
    + reflexivity.
Defined.

(** ** The log store *)

Global Instance line_le_trans : Transitive JobService.line_le.
Proof. unfold JobService.line_le. intros a b c. lia. Qed.

Global Instance line_le_total : Total JobService.line_le.
Proof. unfold JobService.line_le. intros a b. lia. Qed.

Lemma filter_all {A} (P : A → Prop) `{∀ x, Decision (P x)} (l : list A) :
  (∀ x, P x) → filter P l = l.
Proof.
  intros HP. induction l as [|x l IH]; [done|].
  by rewrite filter_cons_True, IH.
Qed.

Lemma filter_same {A} (P Q : A → Prop) `{∀ x, Decision (P x)}
    `{∀ x, Decision (Q x)} (l : list A) :
  (∀ x, P x ↔ Q x) → filter P l = filter Q l.
Proof.
  intros HPQ. induction l as [|x l IH]; [done|].
  rewrite !filter_cons, IH. repeat case_decide; firstorder.
Qed.

Lemma StronglySorted_sublist {A} (R : relation A) (l k : list A) :
  l `sublist_of` k → StronglySorted R k → StronglySorted R l.
Proof.
  induction 1 as [|x l k Hs IH|x l k Hs IH]; intros Hk; [done|..];
    apply StronglySorted_inv in Hk as [Hk Hx].
  - constructor; [by apply IH|].
    rewrite Forall_forall in Hx |- *. intros y Hy. apply Hx.
    by apply (elem_of_sublist l k).
  - by apply IH.
Qed.

Lemma add_job_log_row now jid n c lvl d :
  JobService.add_job_log now jid n c lvl d
  = (let row := JobLog.mk (1 + Z.of_nat (length (job_logs d))) jid n c
                  (Some (default "INFO" lvl)) now in
     (inr row, with_job_logs (job_logs d ++ [row]) d)).
Proof. reflexivity. Qed.

Lemma append_all_line_numbers jid calls d :
  line_numbers jid (append_all jid calls d)
  = line_numbers jid d ++ ((λ c, c.1.1.2) <$> calls).
Proof.
  revert d. induction calls as [|[[[now n] c] lvl] calls IH]; intros d.
  - simpl. by rewrite app_nil_r.
  - simpl. rewrite IH. unfold line_numbers, stored_lines, db_after. simpl.
    rewrite filter_app, filter_cons_True, filter_nil by done.
    by rewrite fmap_app, <- app_assoc.
Qed.

(** C6, counterexample: two appends to job 1 that both pass line number 5
    store two rows numbered 5, in the order 5, 5. *)
Lemma append_keeps_duplicate_number :
  let d := append_all 1 [(201, 5, "a", None); (202, 5, "b", None)]
             db_pending in
  line_numbers 1 d = [5; 5]
  ∧ ¬ NoDup (line_numbers 1 d)
  ∧ ¬ StronglySorted Z.lt (line_numbers 1 d).
Proof.
  cbv zeta. rewrite append_all_line_numbers. simpl. split_and!; [done|..].
  - intros Hnd. apply NoDup_cons in Hnd as [Hnin _]. set_solver.
  - intros Hs. apply StronglySorted_inv in Hs as [_ Hf].
    apply Forall_cons in Hf as [? _]. lia.
Qed.

(** C6, as the code has it: [add_job_log] does not number the line; it
    stores one new row with exactly the [line_number] the caller passes and
    returns it.  After any run of appends to one job the stored numbers of
    that job are the earlier ones followed by the callers' numbers in call
    order, so they are unique and increasing exactly as far as the callers'
    numbers are. *)
Theorem add_job_log_stores_given_number :
  (∀ now jid n c lvl d,
     ∃ row, JobService.add_job_log now jid n c lvl d
            = (inr row, with_job_logs (job_logs d ++ [row]) d)
       ∧ JobLog.job_id row = jid
       ∧ JobLog.line_number row = n
       ∧ JobLog.content row = c)
  ∧ (∀ jid calls d,
       line_numbers jid (append_all jid calls d)
       = line_numbers jid d ++ ((λ c, c.1.1.2) <$> calls)).
Proof.
  split.
  - intros. rewrite add_job_log_row. by eexists.
  - apply append_all_line_numbers.
Qed.

Lemma insert_by_line_perm x rows :
  JobService.insert_by_line x rows ≡ₚ x :: rows.
Proof.
  induction rows as [|y rows IH]; simpl; [done|].
  case_decide; [done|]. rewrite IH. apply Permutation_swap.
Qed.

Lemma order_by_line_number_perm rows :
  JobService.order_by_line_number rows ≡ₚ rows.
Proof.
  induction rows as [|x rows IH]; simpl; [done|].
  by rewrite insert_by_line_perm, IH.
Qed.

Lemma insert_by_line_sorted x rows :
  StronglySorted JobService.line_le rows →
  StronglySorted JobService.line_le (JobService.insert_by_line x rows).
Proof.
  induction 1 as [|y rows Hs IH Hy]; simpl; [by repeat constructor|].
  case_decide as Hxy.
  - constructor; [by constructor|]. constructor; [done|].
    eapply Forall_impl; [exact Hy|]. intros z Hz. by etrans.
  - constructor; [done|].
    rewrite insert_by_line_perm. constructor; [|done].
    by destruct (total JobService.line_le x y).
Qed.

Lemma order_by_line_number_sorted rows :
  StronglySorted JobService.line_le (JobService.order_by_line_number rows).
Proof.
  induction rows as [|x rows IH]; simpl; [constructor|].
  by apply insert_by_line_sorted.
Qed.

(** The order is stable: the rows with one number come out in the order
    they were stored. *)
Lemma order_by_line_number_stable n rows :
  filter (λ l, JobLog.line_number l = n)
    (JobService.order_by_line_number rows)
  = filter (λ l, JobLog.line_number l = n) rows.
Proof.
  assert (Hins : ∀ x sorted,
            filter (λ l, JobLog.line_number l = n)
              (JobService.insert_by_line x sorted)
            = filter (λ l, JobLog.line_number l = n) (x :: sorted)).
  { intros x sorted. induction sorted as [|y sorted IH]; simpl; [done|].
    case_decide as Hxy; [done|].
    rewrite filter_cons, IH, !filter_cons.
    unfold JobService.line_le in Hxy.
    destruct (decide (JobLog.line_number y = n)),
      (decide (JobLog.line_number x = n)); try done. lia. }
  induction rows as [|x rows IH]; simpl; [done|].
  by rewrite Hins, !filter_cons, IH.
Qed.

(** What [get_job_logs] computes: the stored lines of the job in ascending
    order, from the lower bound on, cut by a truthy limit. *)
Lemma get_job_logs_result jid start_line limit d :
  JobService.get_job_logs jid start_line limit d
  = (let all := filter (from_line start_line)
                  (JobService.order_by_line_number (stored_lines jid d)) in
     if truthy_int limit
     then JobService.limit_all (default 0 limit) all d
     else (inr all, d)).
Proof.
  unfold JobService.get_job_logs. run_m. fold (stored_lines jid d).
  set (q := JobService.order_by_line_number (stored_lines jid d)).
  assert (Hq : (if truthy_int start_line
                then filter (λ l, default 0 start_line ≤ JobLog.line_number l)
                       q
                else q) = filter (from_line start_line) q).
  { destruct (truthy_int start_line) eqn:Hs.
    - apply filter_same. intros l. unfold from_line. rewrite Hs. intuition.
    - symmetry. apply filter_all. intros l. unfold from_line. by rewrite Hs. }
  rewrite Hq. by destruct (truthy_int limit).
Qed.

(** C9, counterexample: with the three lines stored, a read with
    [limit=0] returns all three, more than the limit allows. *)
Lemma limit_zero_returns_all_lines :
  (∃ rows, outcome (JobService.get_job_logs 1 None (Some 0) db_logged)
           = inr rows ∧ length rows = 3%nat)
  ∧ ¬ read_as_specified 1 None (Some 0) db_logged.
Proof.
  split; [eexists; split; by vm_compute|].
  intros (rows & Hrows & _ & Hlen). specialize (Hlen 0 eq_refl).
  vm_compute in Hrows. injection Hrows as <-. simpl in Hlen. lia.
Qed.

(** C9, as the code has it.  For a limit that is absent or not negative,
    [get_job_logs] returns and leaves the database alone.  Without a
    truthy limit it returns exactly the stored lines of the job that meet
    the lower bound, in ascending order of [line_number]; the lower bound
    is [line_number ≥ start_line] when [start_line] is given and not 0,
    and there is none when it is absent or 0.  With a limit [n > 0] it
    returns the first [n] of those lines, so at most [n], still ascending.
    When the caller has numbered the lines ["line-0"], ["line-1"],
    ["line-2"] of a job as 0, 1, 2, a read with [start_line=1] and
    [limit=1] returns exactly ["line-1"]. *)
Theorem get_job_logs_reads_in_order :
  (∀ jid start_line limit d,
     (∀ n, limit = Some n → 0 ≤ n) →
     ∃ all rows,
       JobService.get_job_logs jid start_line None d = (inr all, d)
       ∧ JobService.get_job_logs jid start_line limit d = (inr rows, d)
       ∧ all ≡ₚ filter (from_line start_line) (stored_lines jid d)
       ∧ StronglySorted JobService.line_le all
       ∧ StronglySorted JobService.line_le rows
       ∧ (∀ n, limit = Some n → 0 < n →
               rows = take (Z.to_nat n) all ∧ Z.of_nat (length rows) ≤ n)
       ∧ (truthy_int limit = false → rows = all))
  ∧ (∀ X d t0 t1 t2,
       stored_lines X d = [] →
       let d' := append_all X [(t0, 0, "line-0", None);
                               (t1, 1, "line-1", None);
                               (t2, 2, "line-2", None)] d in
       ∃ rows, JobService.get_job_logs X (Some 1) (Some 1) d' = (inr rows, d')
         ∧ JobLog.content <$> rows = ["line-1"]).
Proof.
  split.
  - intros jid start_line limit d Hlim.
    set (all := filter (from_line start_line)
                  (JobService.order_by_line_number (stored_lines jid d))).
    assert (Hsorted : StronglySorted JobService.line_le all).
    { apply (StronglySorted_sublist _ _ _ (sublist_filter _ _)).
      apply order_by_line_number_sorted. }
    assert (Hperm : all ≡ₚ filter (from_line start_line) (stored_lines jid d)).
    { apply filter_Permutation, order_by_line_number_perm. }
    rewrite !get_job_logs_result. fold all. cbv zeta. simpl.
    destruct limit as [n|]; simpl.
    + specialize (Hlim n eq_refl). destruct (Z.eqb_spec n 0) as [->|Hn]; simpl.
      * exists all, all. split_and!; try done. intros n [= <-]. lia.
      * unfold JobService.limit_all.
        destruct (Z.ltb_spec n 0) as [?|_]; [lia|].
        exists all, (take (Z.to_nat n) all). split_and!; try done.
        -- by apply (StronglySorted_sublist _ _ _ (sublist_take _ _)).
        -- intros n' [= <-] _. split; [done|]. rewrite length_take. lia.
    + exists all, all. split_and!; done.
  - intros X d t0 t1 t2 Hempty d'.
    assert (∃ i0 i1 i2,
              stored_lines X d'
              = [JobLog.mk i0 X 0 "line-0" (Some "INFO") t0;
                 JobLog.mk i1 X 1 "line-1" (Some "INFO") t1;
                 JobLog.mk i2 X 2 "line-2" (Some "INFO") t2])
      as (i0 & i1 & i2 & Hstored).
    { unfold d', stored_lines, append_all, db_after. simpl.
      rewrite !filter_app, !filter_cons_True, !filter_nil by done.
      fold (stored_lines X d). rewrite Hempty. simpl. by eexists _, _, _. }
    clearbody d'. rewrite get_job_logs_result, Hstored.
    exists [JobLog.mk i1 X 1 "line-1" (Some "INFO") t1].
    split; [|done]. by vm_compute.
Qed.

Lemma get_job_logs_reads_in_order_witness :
  (∃ all rows,
     JobService.get_job_logs 1 (Some 1) None db_logged = (inr all, db_logged)
     ∧ JobService.get_job_logs 1 (Some 1) (Some 1) db_logged
       = (inr rows, db_logged)
     ∧ all ≡ₚ filter (from_line (Some 1)) (stored_lines 1 db_logged)
     ∧ StronglySorted JobService.line_le all
     ∧ StronglySorted JobService.line_le rows
     ∧ (∀ n, Some 1 = Some n → 0 < n →
             rows = take (Z.to_nat n) all ∧ Z.of_nat (length rows) ≤ n)
     ∧ (truthy_int (Some 1) = false → rows = all))
  ∧ (∃ rows, JobService.get_job_logs 1 (Some 1) (Some 1) db_logged
             = (inr rows, db_logged)
       ∧ JobLog.content <$> rows = ["line-1"]).
Proof.
  split.
  - apply (proj1 get_job_logs_reads_in_order 1 (Some 1) (Some 1) db_logged).
    intros n [= <-]. lia.
  - apply (proj2 get_job_logs_reads_in_order 1 db_pending 201 202 203).
    reflexivity.
Defined.

(** C10: at [get_job_logs], [start_line=0] reads like an absent
    [start_line] and [limit=0] reads like an absent [limit].  With
    [start_line=0] there is no lower bound: with [limit=0] as well, the
    result holds every stored line of the job, whatever its number, each
    as often as it is stored, in ascending order.  With [limit=0] and any
    [start_line] the result holds all the stored lines that meet the lower
    bound, not none of them. *)
Theorem get_job_logs_zero_is_absent jid start_line limit d :
  JobService.get_job_logs jid (Some 0) limit d
    = JobService.get_job_logs jid None limit d
  ∧ JobService.get_job_logs jid start_line (Some 0) d
    = JobService.get_job_logs jid start_line None d
  ∧ (∃ rows, JobService.get_job_logs jid (Some 0) (Some 0) d = (inr rows, d)
       ∧ rows ≡ₚ stored_lines jid d
       ∧ StronglySorted JobService.line_le rows)
  ∧ (∃ rows, JobService.get_job_logs jid start_line (Some 0) d = (inr rows, d)
       ∧ rows ≡ₚ filter (from_line start_line) (stored_lines jid d)
       ∧ StronglySorted JobService.line_le rows).
Proof.
  split_and!; try reflexivity.
  - rewrite get_job_logs_result. simpl. eexists. split; [reflexivity|].
    rewrite (filter_all (from_line (Some 0))) by (intros l Hl; done).
    split; [apply order_by_line_number_perm|].
    apply order_by_line_number_sorted.
  - rewrite get_job_logs_result. simpl. eexists. split; [reflexivity|].
    split; [apply filter_Permutation, order_by_line_number_perm|].
    apply (StronglySorted_sublist _ _ _ (sublist_filter _ _)).
    apply order_by_line_number_sorted.
Qed.

(** ** Statistics *)

Lemma length_filter_values {A} (P : A → Prop) `{∀ x, Decision (P x)}
    (m : gmap Z A) :
  length (filter P (map_to_list m).*2)
  = size (filter (λ kv : Z * A, P kv.2) m).
Proof.
  induction m as [|i x m Hi IH] using map_ind.
  - by rewrite map_to_list_empty, map_filter_empty, map_size_empty.
  - rewrite map_to_list_insert by done. rewrite fmap_cons, filter_cons. simpl.
    destruct (decide (P x)) as [HP|HP].
    + rewrite map_filter_insert_True by done.
      rewrite map_size_insert_None
        by (apply map_lookup_filter_None_2; by left).
      simpl. by rewrite IH.
    + rewrite map_filter_insert_False by done.
      by rewrite delete_id.
Qed.

Lemma rows_count (P : Job.t → Prop) `{∀ j, Decision (P j)} d :
  Z.of_nat (length (filter P (Job_query d))) = jobs_count P d.
Proof. unfold Job_query, jobs_count. by rewrite length_filter_values. Qed.

Lemma count_status_partition rows :
  Z.of_nat (length rows)
  = JobService.count_status pending rows + JobService.count_status running rows
    + JobService.count_status success rows
    + JobService.count_status failed rows
    + JobService.count_status cancelled rows.
Proof.
  unfold JobService.count_status.
  induction rows as [|j rows IH]; [done|].
  rewrite !filter_cons.
  destruct (Job.status j); repeat case_decide; try congruence; simpl; lia.
Qed.

Lemma round_half_even_close (y : Q) :
  (y - (1 # 2) <= inject_Z (round_half_even y)
   ∧ inject_Z (round_half_even y) <= y + (1 # 2))%Q.
Proof.
  destruct y as [n d]. unfold round_half_even. simpl.
  pose proof (Z.div_mod n (Z.pos d) ltac:(done)) as Hdm.
  pose proof (Z.mod_pos_bound n (Z.pos d) ltac:(done)) as Hb.
  set (q := n / Z.pos d) in *. set (r := n mod Z.pos d) in *.
  assert (Hcases : ∀ z, (z = q ∧ 2 * r ≤ Z.pos d)
                        ∨ (z = q + 1 ∧ Z.pos d ≤ 2 * r) →
            (Qle ((n # d) - (1 # 2)) (inject_Z z)
             ∧ Qle (inject_Z z) ((n # d) + (1 # 2)))).
  { intros z Hz. unfold Qle, Qminus, Qplus, Qopp, inject_Z. simpl.
    rewrite !Pos2Z.inj_mul. nia. }
  apply Hcases.
  destruct (Z.compare_spec (2 * r) (Z.pos d)); [|left; lia|right; lia].
  destruct (Z.even q); [left|right]; lia.
Qed.

Lemma pow2_pos e : (0 < pow2 e)%Q.
Proof. by apply Qpower_0_lt. Qed.

Lemma pow2_nat e : 0 ≤ e → (pow2 e == inject_Z (2 ^ e))%Q.
Proof. intros He. unfold pow2. by rewrite Zpower_Qpower. Qed.

Lemma round_half_even_le (y : Q) (K : Z) :
  (y <= inject_Z K)%Q → round_half_even y ≤ K.
Proof.
  intros Hy. destruct (round_half_even_close y) as [_ Hhi].
  assert (H : (inject_Z (round_half_even y) <= inject_Z K + (1 # 2))%Q)
    by lra.
  unfold Qle, Qplus, inject_Z in H. simpl in H. lia.
Qed.

Lemma round_half_even_ge (y : Q) (K : Z) :
  (inject_Z K <= y)%Q → K ≤ round_half_even y.
Proof.
  intros Hy. destruct (round_half_even_close y) as [Hlo _].
  assert (H : (inject_Z K - (1 # 2) <= inject_Z (round_half_even y))%Q)
    by lra.
  unfold Qle, Qminus, Qplus, Qopp, inject_Z in H. simpl in H. lia.
Qed.

Lemma round_pos_nonneg x : (0 <= x)%Q → (0 <= round_pos x)%Q.
Proof.
  intros Hx. unfold round_pos. rewrite Qred_correct.
  pose proof (pow2_pos (binade x - 52)) as Hu.
  apply Qmult_le_0_compat; [|by apply Qlt_le_weak].
  change 0%Q with (inject_Z 0). rewrite <- Zle_Qle.
  apply round_half_even_ge. apply Qle_shift_div_l; [done|].
  change (inject_Z 0) with 0%Q. by rewrite Qmult_0_l.
Qed.

Lemma fl_nonneg x : (0 <= x)%Q → (0 <= fl x)%Q.
Proof.
  intros Hx. unfold fl.
  pose proof (Qred_correct x) as Hr.
  destruct (Qred x) as [n d] eqn:Hy. simpl.
  destruct n as [|p|p]; [done| |].
  - apply round_pos_nonneg. rewrite Hr. done.
  - rewrite <- Hr in Hx. unfold Qle in Hx. simpl in Hx. lia.
Qed.

Lemma binade_le x B :
  0 < Qnum x → (x <= inject_Z B)%Q → binade x ≤ Z.log2 B + 1.
Proof.
  intros Hn HB. destruct x as [n d]. simpl in Hn.
  assert (He : Z.log2 n - Z.log2 (Z.pos d) ≤ Z.log2 B + 1).
  { unfold Qle in HB. simpl in HB.
    assert (0 < B) by nia.
    pose proof (Z.log2_le_mono _ _ HB) as H1.
    rewrite Z.mul_1_r in H1.
    assert (H2 : Z.log2 (B * Z.pos d) ≤ Z.log2 B + Z.log2 (Z.pos d) + 1)
      by (apply Z.log2_mul_above; lia).
    lia. }
  unfold binade. cbn [Qnum Qden]. destruct (Qle_bool _ _); lia.
Qed.

Lemma round_pos_le_int x B :
  0 < Qnum x → (x <= inject_Z B)%Q → Z.log2 B + 1 ≤ 52 →
  (round_pos x <= inject_Z B)%Q.
Proof.
  intros Hn HB Hlog. pose proof (binade_le x B Hn HB) as He.
  unfold round_pos. rewrite Qred_correct.
  set (e := binade x) in *. set (s := 52 - e).
  assert (Hs : 0 ≤ s) by (unfold s; lia).
  assert (Hulp : (pow2 (e - 52) == / inject_Z (2 ^ s))%Q).
  { replace (e - 52) with (- s) by (unfold s; lia).
    unfold pow2. rewrite Qpower_opp. by rewrite Zpower_Qpower. }
  assert (HP : (0 < inject_Z (2 ^ s))%Q).
  { change 0%Q with (inject_Z 0). rewrite <- Zlt_Qlt. lia. }
  assert (Hk : round_half_even (x / pow2 (e - 52)) ≤ B * 2 ^ s).
  { apply round_half_even_le. rewrite Hulp, inject_Z_mult.
    unfold Qdiv. rewrite Qinv_involutive.
    apply Qmult_le_compat_r; [done|by apply Qlt_le_weak]. }
  set (r := round_half_even (x / pow2 (e - 52))) in *.
  rewrite Hulp. apply Qle_shift_div_r; [done|].
  rewrite <- inject_Z_mult, <- Zle_Qle. done.
Qed.

Lemma fl_le_int x B :
  (0 <= x)%Q → (x <= inject_Z B)%Q → 0 ≤ B → Z.log2 B + 1 ≤ 52 →
  (fl x <= inject_Z B)%Q.
Proof.
  intros Hx HB HB0 Hlog. unfold fl.
  pose proof (Qred_correct x) as Hr.
  destruct (Qred x) as [n d] eqn:Hy. simpl.
  destruct n as [|p|p].
  - change 0%Q with (inject_Z 0). by rewrite <- Zle_Qle.
  - apply round_pos_le_int; [done|by rewrite Hr|done].
  - rewrite <- Hr in Hx. unfold Qle in Hx. simpl in Hx. lia.
Qed.

Lemma fl_Qeq x y : (x == y)%Q → fl x = fl y.
Proof. intros H. unfold fl. by rewrite (Qred_complete _ _ H). Qed.

Lemma pow2_minus a b : (pow2 (a - b) == pow2 a / pow2 b)%Q.
Proof. unfold pow2. by rewrite Qpower_minus. Qed.

Lemma binade_lower x : 0 < Qnum x → (pow2 (binade x) <= x)%Q.
Proof.
  intros Hn. unfold binade.
  set (ln := Z.log2 (Qnum x)). set (ld := Z.log2 (Z.pos (Qden x))).
  destruct (Qle_bool (pow2 (ln - ld)) x) eqn:Hb; [by apply Qle_bool_iff|].
  pose proof (Z.log2_spec (Qnum x) Hn) as [Hln _].
  pose proof (Z.log2_spec (Z.pos (Qden x)) ltac:(done)) as [_ Hld].
  pose proof (Z.log2_nonneg (Qnum x)). pose proof (Z.log2_nonneg (Z.pos (Qden x))).
  fold ln in Hln. fold ld in Hld.
  replace (ln - ld - 1) with (ln - (ld + 1)) by lia.
  rewrite pow2_minus, !pow2_nat by lia.
  assert (HP : (0 < inject_Z (2 ^ (ld + 1)))%Q).
  { change 0%Q with (inject_Z 0). rewrite <- Zlt_Qlt. lia. }
  apply Qle_shift_div_r; [done|].
  destruct x as [n d]. unfold Qle, Qmult, inject_Z. simpl in *.
  replace (Z.succ ld) with (ld + 1) in Hld by lia. nia.
Qed.

Lemma round_pos_error x :
  0 < Qnum x →
  (x - x * unit_roundoff <= round_pos x
   ∧ round_pos x <= x + x * unit_roundoff)%Q.
Proof.
  intros Hn. pose proof (binade_lower x Hn) as He.
  unfold round_pos. rewrite Qred_correct.
  set (e := binade x) in *.
  pose proof (pow2_pos (e - 52)) as Hu.
  assert (Hulp : (pow2 (e - 52) == pow2 e * (1 # 2 ^ 52))%Q).
  { rewrite pow2_minus. unfold Qdiv.
    apply Qmult_comp; [reflexivity|]. reflexivity. }
  destruct (round_half_even_close (x / pow2 (e - 52))) as [Hlo Hhi].
  set (r := inject_Z (round_half_even (x / pow2 (e - 52)))) in *.
  assert (Hy : (x / pow2 (e - 52) * pow2 (e - 52) == x)%Q).
  { unfold Qdiv. rewrite <- Qmult_assoc, (Qmult_comm (/ _)), Qmult_inv_r;
      [ring|]. intros H0. rewrite H0 in Hu. by apply Qlt_irrefl in Hu. }
  set (y := (x / pow2 (e - 52))%Q) in *. set (ulp := pow2 (e - 52)) in *.
  set (pe := pow2 e) in *.
  assert (H1 : ((y - (1 # 2)) * ulp <= r * ulp)%Q)
    by (apply Qmult_le_compat_r; [done|by apply Qlt_le_weak]).
  assert (H2 : (r * ulp <= (y + (1 # 2)) * ulp)%Q)
    by (apply Qmult_le_compat_r; [done|by apply Qlt_le_weak]).
  unfold unit_roundoff. change (2 ^ 53)%positive with 9007199254740992%positive.
  change (2 ^ 52)%positive with 4503599627370496%positive in Hulp.
  split; lra.
Qed.

Lemma fl_error x :
  (0 <= x)%Q →
  (x - x * unit_roundoff <= fl x ∧ fl x <= x + x * unit_roundoff)%Q.
Proof.
  intros Hx. unfold fl.
  pose proof (Qred_correct x) as Hr.
  destruct (Qred x) as [n d] eqn:Hy. simpl.
  destruct n as [|p|p].
  - assert (x == 0)%Q as -> by (rewrite <- Hr; reflexivity). split; done.
  - rewrite <- Hr. by apply round_pos_error.
  - rewrite <- Hr in Hx. unfold Qle in Hx. simpl in Hx. lia.
Qed.

Lemma scoped_rows user_id (rows : list Job.t) :
  (if truthy_int user_id
   then filter (λ j, Job.user_id j = default 0 user_id) rows
   else rows) = filter (scoped user_id) rows.
Proof.
  destruct (truthy_int user_id) eqn:Hu.
  - apply filter_same. intros j. unfold scoped. rewrite Hu. intuition.
  - symmetry. apply filter_all. intros j. unfold scoped. by rewrite Hu.
Qed.

Lemma count_status_scoped st user_id d :
  JobService.count_status st (filter (scoped user_id) (Job_query d))
  = jobs_count (λ j, Job.status j = st ∧ scoped user_id j) d.
Proof.
  unfold JobService.count_status. rewrite list_filter_filter.
  apply rows_count.
Qed.

Lemma count_status_all st d :
  JobService.count_status st (Job_query d)
  = jobs_count (λ j, Job.status j = st) d.
Proof. apply rows_count. Qed.

Lemma count_status_nonneg st rows : 0 ≤ JobService.count_status st rows.
Proof. unfold JobService.count_status. lia. Qed.

(** [fl] against the primitive doubles, on the operations of the
    statistics: a quotient of two integers, its product with 100, and the
    division by 100 that ends [round(x, 2)]. *)
Example fl_agrees_with_binary64 :
  float_value (93 / 160)%float = Some (int_truediv 93 160)
  ∧ float_value (93 / 160 * 100)%float
    = Some (float_mul (int_truediv 93 160) (inject_Z 100))
  ∧ float_value (5813 / 100)%float
    = Some (py_round (float_mul (int_truediv 93 160) (inject_Z 100)) 2)
  ∧ float_value (2 / 3 * 100)%float
    = Some (float_mul (int_truediv 2 3) (inject_Z 100))
  ∧ float_value (6667 / 100)%float
    = Some (py_round (float_mul (int_truediv 2 3) (inject_Z 100)) 2)
  ∧ float_value (1 / 3)%float = Some (fl (1 # 3))
  ∧ float_value (- 1 / 3)%float = Some (fl (- 1 # 3))
  ∧ float_value (9007199254740992 + 1)%float
    = Some (fl (inject_Z (2 ^ 53 + 1)))
  ∧ float_value (9007199254740992 + 3)%float
    = Some (fl (inject_Z (2 ^ 53 + 3))).
Proof. by vm_compute. Qed.

Lemma unfailed_share_bounds total failed :
  0 < total → 0 ≤ failed ≤ total →
  (0 <= inject_Z (total - failed) / inject_Z total
   ∧ inject_Z (total - failed) / inject_Z total <= 1)%Q.
Proof.
  intros Ht Hf.
  assert (HT : (0 < inject_Z total)%Q).
  { change 0%Q with (inject_Z 0). by rewrite <- Zlt_Qlt. }
  split.
  - apply Qle_shift_div_l; [done|]. rewrite Qmult_0_l.
    change 0%Q with (inject_Z 0). rewrite <- Zle_Qle. lia.
  - apply Qle_shift_div_r; [done|]. rewrite Qmult_1_l.
    rewrite <- Zle_Qle. lia.
Qed.

(** The rate for [total] jobs of which [failed] have failed, step by step:
    it is the double nearest to [k/100] for an integer [k] between 0 and
    10000, that [k/100] is the computed percentage rounded to two decimals,
    and both are within 0.005, plus the floating-point error, of the exact
    percentage. *)
Lemma success_rate_steps total failed :
  0 < total → 0 ≤ failed ≤ total →
  let rate := py_round (float_mul (int_truediv (total - failed) total)
                          (inject_Z 100)) 2 in
  ∃ k : Z,
    0 ≤ k ≤ 10000
    ∧ rate = fl (inject_Z k / inject_Z 100)
    ∧ (unfailed_share total failed - (1 # 200) - float_slack
         <= inject_Z k / inject_Z 100
       ∧ inject_Z k / inject_Z 100
         <= unfailed_share total failed + (1 # 200) + float_slack)%Q
    ∧ (unfailed_share total failed - (1 # 200) - float_slack <= rate
       ∧ rate <= unfailed_share total failed + (1 # 200) + float_slack)%Q.
Proof.
  intros Ht Hf rate. unfold rate, py_round, float_mul, int_truediv,
    unfailed_share.
  change (10 ^ 2) with 100.
  destruct (unfailed_share_bounds total failed Ht Hf) as [Hq0 Hq1].
  set (q := (inject_Z (total - failed) / inject_Z total)%Q) in *.
  pose proof (fl_nonneg q Hq0) as Hx0.
  pose proof (fl_le_int q 1 Hq0 Hq1 ltac:(done) ltac:(done)) as Hx1.
  destruct (fl_error q Hq0) as [Hxl Hxh].
  set (x1 := fl q) in *.
  assert (Hy0 : (0 <= x1 * inject_Z 100)%Q).
  { change (inject_Z 100) with 100%Q. lra. }
  assert (Hy1 : (x1 * inject_Z 100 <= inject_Z 100)%Q).
  { change (inject_Z 100) with 100%Q. change (inject_Z 1) with 1%Q in Hx1.
    lra. }
  pose proof (fl_nonneg _ Hy0) as Hp0.
  pose proof (fl_le_int _ 100 Hy0 Hy1 ltac:(done) ltac:(done)) as Hp1.
  destruct (fl_error _ Hy0) as [Hpl Hph].
  set (x2 := fl (x1 * inject_Z 100)) in *.
  destruct (round_half_even_close (x2 * inject_Z 100)) as [Hkl Hkh].
  assert (Hk : 0 ≤ round_half_even (x2 * inject_Z 100) ≤ 10000).
  { split.
    - apply round_half_even_ge. change (inject_Z 0) with 0%Q.
      change (inject_Z 100) with 100%Q. lra.
    - apply round_half_even_le. change (inject_Z 10000) with 10000%Q.
      change (inject_Z 100) with 100%Q in *. lra. }
  set (k := round_half_even (x2 * inject_Z 100)) in *.
  assert (Hz0 : (0 <= inject_Z k / inject_Z 100)%Q).
  { apply Qle_shift_div_l; [done|]. rewrite Qmult_0_l.
    change 0%Q with (inject_Z 0). rewrite <- Zle_Qle. lia. }
  assert (Hz1 : (inject_Z k / inject_Z 100 <= 100)%Q).
  { apply Qle_shift_div_r; [done|].
    change (100 * inject_Z 100)%Q with (inject_Z 10000).
    rewrite <- Zle_Qle. lia. }
  destruct (fl_error _ Hz0) as [Hrl Hrh].
  assert (Hz : (inject_Z k / inject_Z 100 == inject_Z k * (1 # 100))%Q)
    by reflexivity.
  set (z := (inject_Z k / inject_Z 100)%Q) in *.
  set (ik := inject_Z k) in *.
  exists k. split; [done|]. split; [done|].
  unfold unit_roundoff, float_slack in *.
  change (2 ^ 53)%positive with 9007199254740992%positive in *.
  change (10 ^ 13)%positive with 10000000000000%positive.
  change (inject_Z 100) with 100%Q in *. change (inject_Z 1) with 1%Q in *.
  fold ik. fold z. set (r := fl z) in *.
  clearbody r z ik x2 x1 q. clear rate.
  split; split; lra.
Qed.

(** C8, counterexample: of thirty-two jobs one has failed.  The share of
    the others is 96.875 percent, a number that is a double as it stands;
    the rate returned is the double nearest to 96.88. *)
Lemma rate_of_thirty_two_is_rounded :
  outcome (JobService.get_job_statistics None db_thirty_two)
    = inr (Stats.mk 32 0 0 31 1 0 (852165491991511 # 8796093022208))
  ∧ (unfailed_share 32 1 == 96875 # 1000)%Q
  ∧ (float_mul (int_truediv (32 - 1) 32) (inject_Z 100) == 96875 # 1000)%Q
  ∧ ¬ rate_is_share None db_thirty_two.
Proof.
  split_and!; [by vm_compute..|].
  intros H.
  specialize (H (Stats.mk 32 0 0 31 1 0 (852165491991511 # 8796093022208))).
  vm_compute in H. specialize (H eq_refl eq_refl). discriminate.
Qed.

(** C8, as the code has it.  [get_job_statistics] returns, without
    touching the database, the number of jobs in scope and the number of
    them in each of the five statuses, where the scope is the jobs of one
    user when [user_id] is given (and not 0) and all jobs otherwise; the
    five counts add up to the total.  [success_rate] is 0 when the total is
    0 and otherwise the percentage [(total - failed) / total * 100],
    computed in double precision and rounded to two decimal places: it is
    the double nearest to a number [k/100] of two decimals, and that number
    and the rate are within 0.005 (plus a floating-point error below
    10^-13) of the exact percentage.  Over any table of 10 jobs with 7
    successes, 2 failures and 1 cancellation the result is total 10,
    pending 0, running 0, success 7, failed 2, cancelled 1 and rate 80. *)
Theorem get_job_statistics_counts :
  (∀ user_id d,
     ∃ s, JobService.get_job_statistics user_id d = (inr s, d)
       ∧ Stats.total s = jobs_count (scoped user_id) d
       ∧ Stats.pending s
           = jobs_count (λ j, Job.status j = pending ∧ scoped user_id j) d
       ∧ Stats.running s
           = jobs_count (λ j, Job.status j = running ∧ scoped user_id j) d
       ∧ Stats.success s
           = jobs_count (λ j, Job.status j = success ∧ scoped user_id j) d
       ∧ Stats.failed s
           = jobs_count (λ j, Job.status j = failed ∧ scoped user_id j) d
       ∧ Stats.cancelled s
           = jobs_count (λ j, Job.status j = cancelled ∧ scoped user_id j) d
       ∧ Stats.total s
           = Stats.pending s + Stats.running s + Stats.success s
             + Stats.failed s + Stats.cancelled s
       ∧ (Stats.total s = 0 → Stats.success_rate s = 0%Q)
       ∧ (0 < Stats.total s →
          Stats.success_rate s
            = py_round (float_mul
                          (int_truediv (Stats.total s - Stats.failed s)
                             (Stats.total s)) (inject_Z 100)) 2
          ∧ ∃ k : Z,
              0 ≤ k ≤ 10000
              ∧ Stats.success_rate s = fl (inject_Z k / inject_Z 100)
              ∧ (unfailed_share (Stats.total s) (Stats.failed s)
                   - (1 # 200) - float_slack
                   <= inject_Z k / inject_Z 100
                 ∧ inject_Z k / inject_Z 100
                   <= unfailed_share (Stats.total s) (Stats.failed s)
                      + (1 # 200) + float_slack)%Q
              ∧ (unfailed_share (Stats.total s) (Stats.failed s)
                   - (1 # 200) - float_slack
                   <= Stats.success_rate s
                 ∧ Stats.success_rate s
                   <= unfailed_share (Stats.total s) (Stats.failed s)
                      + (1 # 200) + float_slack)%Q))
  ∧ (∀ d,
       jobs_count (λ _, True) d = 10 →
       jobs_count (λ j, Job.status j = success) d = 7 →
       jobs_count (λ j, Job.status j = failed) d = 2 →
       jobs_count (λ j, Job.status j = cancelled) d = 1 →
       JobService.get_job_statistics None d
         = (inr (Stats.mk 10 0 0 7 2 1 80), d)).
Proof.
  split.
  - intros user_id d. unfold JobService.get_job_statistics. run_m.
    rewrite scoped_rows. set (rows := filter (scoped user_id) (Job_query d)).
    eexists. split; [reflexivity|]. simpl. split_and!.
    + apply rows_count.
    + apply count_status_scoped.
    + apply count_status_scoped.
    + apply count_status_scoped.
    + apply count_status_scoped.
    + apply count_status_scoped.
    + apply count_status_partition.
    + by intros ->.
    + intros Hpos. destruct (Z.ltb_spec 0 (Z.of_nat (length rows))); [|lia].
      split; [done|]. apply success_rate_steps; [done|].
      pose proof (count_status_partition rows).
      pose proof (count_status_nonneg pending rows).
      pose proof (count_status_nonneg running rows).
      pose proof (count_status_nonneg success rows).
      pose proof (count_status_nonneg failed rows).
      pose proof (count_status_nonneg cancelled rows). lia.
  - intros d Htotal Hsuccess Hfailed Hcancelled.
    unfold JobService.get_job_statistics. run_m.
    rewrite <- rows_count, filter_all in Htotal by done.
    rewrite <- count_status_all in Hsuccess, Hfailed, Hcancelled.
    pose proof (count_status_partition (Job_query d)) as Hsum.
    pose proof (count_status_nonneg pending (Job_query d)).
    pose proof (count_status_nonneg running (Job_query d)).
    assert (JobService.count_status pending (Job_query d) = 0) as -> by lia.
    assert (JobService.count_status running (Job_query d) = 0) as -> by lia.
    by rewrite Htotal, Hsuccess, Hfailed, Hcancelled.
Qed.

Lemma get_job_statistics_counts_witness :
  JobService.get_job_statistics None db_ten
    = (inr (Stats.mk 10 0 0 7 2 1 80), db_ten).
Proof.
  apply (proj2 get_job_statistics_counts db_ten); by vm_compute.
Defined.

(** * Further properties of the service *)

(** ** Rows after a call *)

Lemma Job_eq (j j' : Job.t) :
  same_identity j j' →
  Job.status j' = Job.status j →
  Job.celery_task_id j' = Job.celery_task_id j →
  Job.error_message j' = Job.error_message j →
  Job.started_at j' = Job.started_at j →
  Job.completed_at j' = Job.completed_at j →
  j' = j.
Proof.
  destruct j, j'. unfold same_identity. simpl.
  intros (-> & -> & -> & -> & -> & -> & ->) -> -> -> -> ->. reflexivity.
Qed.

Lemma update_job_status_row d now jid st em h job :
  jobs d !! jid = Some job →
  ∃ job',
    JobService.update_job_status now jid st em h d
      = (inr job', with_jobs (<[Job.id job := job']> (jobs d)) d)
    ∧ same_identity job job'.
Proof.
  intros Hj. unfold JobService.update_job_status. run_m. rewrite Hj.
  destruct (truthy_str h), (truthy_str em); simpl;
    repeat case_bool_decide; simpl;
    (eexists; split; [reflexivity|]); by unfold same_identity.
Qed.

Lemma cancel_job_row d now jid uid job :
  jobs d !! jid = Some job →
  ∃ job' entry,
    JobService.cancel_job now jid uid d
      = (inr job',
         with_jobs (<[Job.id job := job']> (jobs d))
           (with_audit_logs (audit_logs d ++ [entry]) d))
    ∧ same_identity job job'
    ∧ AuditLog.user_id entry = uid
    ∧ AuditLog.action entry = "CANCEL"
    ∧ AuditLog.resource_type entry = "job"
    ∧ AuditLog.resource_id entry = Job.id job.
Proof.
  intros Hj. unfold JobService.cancel_job. run_m. rewrite Hj.
  case_bool_decide; simpl;
    (eexists _, _; split; [reflexivity|]); by unfold same_identity.
Qed.

(** What one call does to the row under a key: a row that exists stays,
    with the same identity, and its [started_at] is kept unless it was
    unset and the call is a [running] status for that job; a key that is
    free stays free unless [create_job] takes it. *)
Lemma run_call_step c d jid :
  jobs_keyed d →
  match jobs d !! jid with
  | Some job =>
    ∃ job', jobs (run_call c d) !! jid = Some job'
      ∧ same_identity job job'
      ∧ (Job.started_at job' = Job.started_at job
         ∨ (Job.started_at job = None
            ∧ ∃ now em h, c = ApplyStatus now jid running em h
                ∧ Job.started_at job' = Some now))
  | None =>
    jobs (run_call c d) !! jid = None
    ∨ ∃ now u p s uid ev,
        c = Create now u p s uid ev
        ∧ token_free d u
        ∧ jobs (run_call c d) !! jid
          = Some (Job.mk jid u p s uid pending None (default [] ev)
                    None None None now)
  end.
Proof.
  intros Hk.
  assert (Hsame : ∀ job, same_identity job job) by (by unfold same_identity).
  destruct c as [now u p s uid ev|now jid' st em h|now jid' uid]; simpl.
  - destruct (create_job_cases now u p s uid ev d)
      as [(e & -> & _)
         |(new & d' & -> & _ & _ & Hfree & Hd' & Hnew & _ & Hjob)];
      unfold db_after; simpl.
    + destruct (jobs d !! jid) as [job|]; [|by left].
      exists job. auto.
    + rewrite Hd', lookup_insert.
      destruct (decide (Job.id new = jid)) as [Hid|Hid].
      * rewrite <- Hid, Hnew. right.
        exists now, u, p, s, uid, ev. split_and!; try done.
        by rewrite Hjob.
      * destruct (jobs d !! jid) as [job|]; [|by left]. exists job. auto.
  - destruct (jobs d !! jid') as [other|] eqn:Ho.
    + destruct (update_job_status_found d now jid' st em h other Ho)
        as (job' & Hrun & _ & _ & Hst & _ & _ & Hs & _).
      destruct (update_job_status_row d now jid' st em h other Ho)
        as (job'' & Hrun' & Hid).
      assert (job'' = job') as -> by congruence.
      rewrite Hrun. unfold db_after. simpl. rewrite (Hk _ _ Ho).
      rewrite lookup_insert. destruct (decide (jid' = jid)) as [->|Hjj].
      * rewrite Ho. exists job'. split_and!; try done.
        rewrite Hs. case_bool_decide as Hc; [|by left].
        destruct Hc as [-> Hnone]. right. split; [done|]. by exists now, em, h.
      * destruct (jobs d !! jid) as [job|]; [|by left]. exists job. auto.
    + rewrite update_job_status_missing by done. unfold db_after. simpl.
      destruct (jobs d !! jid) as [job|]; [|by left]. exists job. auto.
  - destruct (jobs d !! jid') as [other|] eqn:Ho.
    + destruct (cancel_job_found d now jid' uid other Ho)
        as (job' & d' & Hrun & Hd' & _ & _ & _ & _ & _ & _ & _ & Hs & _).
      destruct (cancel_job_row d now jid' uid other Ho)
        as (job'' & entry & Hrun' & Hid & _).
      assert (job'' = job') as -> by congruence.
      rewrite Hrun. unfold db_after. simpl. rewrite Hd', (Hk _ _ Ho).
      rewrite lookup_insert. destruct (decide (jid' = jid)) as [->|Hjj].
      * rewrite Ho. exists job'. split_and!; auto.
      * destruct (jobs d !! jid) as [job|]; [|by left]. exists job. auto.
    + rewrite cancel_job_missing by done. unfold db_after. simpl.
      destruct (jobs d !! jid) as [job|]; [|by left]. exists job. auto.
Qed.

Lemma run_calls_snoc cs c d :
  run_calls (cs ++ [c]) d = run_call c (run_calls cs d).
Proof. unfold run_calls. by rewrite foldl_app. Qed.

Lemma run_calls_keyed cs d :
  jobs d = ∅ → jobs_keyed (run_calls cs d).
Proof.
  intros Hd. apply run_calls_invariants;
    unfold jobs_keyed, terminal_completed; rewrite Hd;
    apply map_Forall_empty.
Qed.

(** ** What a status update touches *)

(** X1: [update_job_status] writes one row and nothing else: every other
    job, the log lines, the audit entries and both registries are as
    before, and for an unknown job id it raises [ValueError] and leaves the
    whole database as it was. *)
Theorem update_job_status_frame d now jid st em h :
  jobs_keyed d →
  let r := JobService.update_job_status now jid st em h d in
  (∀ k, k ≠ jid → jobs (db_after r) !! k = jobs d !! k)
  ∧ job_logs (db_after r) = job_logs d
  ∧ audit_logs (db_after r) = audit_logs d
  ∧ playbooks (db_after r) = playbooks d
  ∧ servers (db_after r) = servers d
  ∧ (jobs d !! jid = None → ∃ msg, r = (inl (ValueError msg), d))
  ∧ (is_Some (jobs d !! jid) → ∃ job', outcome r = inr job'
                                 ∧ jobs (db_after r) !! jid = Some job').
Proof.
  intros Hk. cbv zeta. destruct (jobs d !! jid) as [job|] eqn:Hj.
  - destruct (update_job_status_found d now jid st em h job Hj)
      as (job' & -> & _). unfold db_after, outcome. simpl.
    rewrite (Hk _ _ Hj). split_and!; try done.
    + intros k Hne. by rewrite lookup_insert_ne.
    + intros _. exists job'. by rewrite lookup_insert_eq.
  - rewrite update_job_status_missing by done. unfold db_after. simpl.
    split_and!; try done; try (by intros [? ?]).
    intros _. by eexists.
Qed.

Lemma update_job_status_frame_witness :
  (∀ k, k ≠ 1 →
        jobs (db_after (JobService.update_job_status 120 1 failed
                          (Some "boom") None db_pending)) !! k
        = jobs db_pending !! k)
  ∧ ∃ msg, JobService.update_job_status 120 5 failed None None db_pending
           = (inl (ValueError msg), db_pending).
Proof.
  split.
  - apply (update_job_status_frame db_pending 120 1 failed (Some "boom") None).
    by apply (bool_decide_unpack (jobs_keyed db_pending)).
  - apply (update_job_status_frame db_pending 120 5 failed None None).
    + by apply (bool_decide_unpack (jobs_keyed db_pending)).
    + reflexivity.
Defined.

(** ** [started_at] *)

(** X2: once [started_at] is set, no call changes it: after any
    [create_job], [update_job_status] (a second [running] included) or
    [cancel_job] the job is still there with the same [started_at]. *)
Theorem started_at_set_once c d jid job t :
  jobs_keyed d → jobs d !! jid = Some job → Job.started_at job = Some t →
  ∃ job', jobs (run_call c d) !! jid = Some job'
    ∧ Job.started_at job' = Some t.
Proof.
  intros Hk Hj Ht. pose proof (run_call_step c d jid Hk) as Hstep.
  rewrite Hj in Hstep. destruct Hstep as (job' & Hj' & _ & [Hs|[Hnone _]]).
  - exists job'. split; [done|]. congruence.
  - congruence.
Qed.

Lemma started_at_set_once_witness :
  ∃ job', jobs (run_call (ApplyStatus 130 1 running None None) db_done) !! 1
          = Some job'
    ∧ Job.started_at job' = Some 105.
Proof.
  apply (started_at_set_once (ApplyStatus 130 1 running None None) db_done 1
           job_done 105).
  - by apply (bool_decide_unpack (jobs_keyed db_done)).
  - reflexivity.
  - reflexivity.
Defined.

(** X3: [started_at] is written by nothing but a [running] status update.
    In a database built from an empty [jobs] table, a job whose
    [started_at] is [t] has received [update_job_status(.., 'running')] at
    clock reading [t]. *)
Theorem started_at_only_by_running cs d jid job t :
  jobs d = ∅ →
  jobs (run_calls cs d) !! jid = Some job →
  Job.started_at job = Some t →
  ∃ em h, ApplyStatus t jid running em h ∈ cs.
Proof.
  intros Hd. revert job.
  induction cs as [|c cs IH] using rev_ind; intros job Hj Ht.
  - simpl in Hj. rewrite Hd, lookup_empty in Hj. done.
  - rewrite run_calls_snoc in Hj.
    pose proof (run_call_step c (run_calls cs d) jid (run_calls_keyed cs d Hd))
      as Hstep.
    destruct (jobs (run_calls cs d) !! jid) as [old|] eqn:Hold.
    + destruct Hstep as (job' & Hj' & _ & Hs).
      assert (job' = job) as -> by congruence.
      destruct Hs as [Hs|(_ & now & em & h & -> & Hs)].
      * destruct (IH old eq_refl) as (em & h & Hin); [congruence|].
        exists em, h. set_solver.
      * assert (now = t) as -> by congruence. exists em, h. set_solver.
    + destruct Hstep as [Hnone|(now & u & p & s & uid & ev & _ & _ & Hnew)];
        [congruence|].
      rewrite Hnew in Hj. injection Hj as <-. done.
Qed.

Lemma started_at_only_by_running_witness :
  ∃ em h,
    ApplyStatus 105 1 running em h
    ∈ [Create 100 "u-1" 1 1 7 None; ApplyStatus 105 1 running None None].
Proof.
  apply (started_at_only_by_running
           [Create 100 "u-1" 1 1 7 None; ApplyStatus 105 1 running None None]
           db0 1
           (Job.mk 1 "u-1" 1 1 7 running None [] None (Some 105) None 100)
           105).
  - reflexivity.
  - vm_compute. reflexivity.
  - reflexivity.
Defined.

(** ** Identity of a job *)

Lemma run_calls_identity cs d jid job :
  jobs_keyed d → jobs d !! jid = Some job →
  ∃ job', jobs (run_calls cs d) !! jid = Some job' ∧ same_identity job job'.
Proof.
  revert d job. induction cs as [|c cs IH]; intros d job Hk Hj.
  - exists job. split; [done|]. by unfold same_identity.
  - pose proof (run_call_step c d jid Hk) as Hstep. rewrite Hj in Hstep.
    destruct Hstep as (job1 & Hj1 & Hid1 & _).
    destruct (IH (run_call c d) job1 (run_call_keyed c d Hk) Hj1)
      as (job' & Hj' & Hid').
    exists job'. split; [done|]. unfold same_identity in *.
    intuition congruence.
Qed.

(** X4: no sequence of [create_job], [update_job_status] and [cancel_job]
    calls deletes a job or changes its primary key, token, playbook,
    server, user, extra variables or creation time. *)
Theorem job_identity_is_kept cs d jid job :
  jobs_keyed d → jobs d !! jid = Some job →
  ∃ job', jobs (run_calls cs d) !! jid = Some job'
    ∧ Job.id job' = Job.id job
    ∧ Job.job_id job' = Job.job_id job
    ∧ Job.playbook_id job' = Job.playbook_id job
    ∧ Job.server_id job' = Job.server_id job
    ∧ Job.user_id job' = Job.user_id job
    ∧ Job.extra_vars job' = Job.extra_vars job
    ∧ Job.created_at job' = Job.created_at job.
Proof.
  intros Hk Hj. destruct (run_calls_identity cs d jid job Hk Hj)
    as (job' & Hj' & Hid). by exists job'.
Qed.

Lemma job_identity_is_kept_witness :
  ∃ job',
    jobs (run_calls [ApplyStatus 120 1 running None (Some "w-9");
                     Cancel 130 1 8; Create 140 "u-2" 1 1 8 None] db_done)
      !! 1 = Some job'
    ∧ Job.id job' = 1
    ∧ Job.job_id job' = "u-1"
    ∧ Job.playbook_id job' = 1
    ∧ Job.server_id job' = 1
    ∧ Job.user_id job' = 7
    ∧ Job.extra_vars job' = []
    ∧ Job.created_at job' = 100.
Proof.
  apply (job_identity_is_kept
           [ApplyStatus 120 1 running None (Some "w-9");
            Cancel 130 1 8; Create 140 "u-2" 1 1 8 None] db_done 1 job_done).
  - by apply (bool_decide_unpack (jobs_keyed db_done)).
  - reflexivity.
Defined.

(** ** Cancelling again *)

(** X5: cancelling a job twice leaves the job row exactly as the first
    cancellation left it (the completion time of the first one is kept);
    the second call succeeds too and adds its own audit entry. *)
Theorem cancel_job_twice d now now' jid uid uid' job :
  jobs_keyed d → jobs d !! jid = Some job →
  ∃ j1 d1 j2 d2,
    JobService.cancel_job now jid uid d = (inr j1, d1)
    ∧ JobService.cancel_job now' jid uid' d1 = (inr j2, d2)
    ∧ j2 = j1
    ∧ jobs d2 = jobs d1
    ∧ length (audit_logs d2) = S (S (length (audit_logs d))).
Proof.
  intros Hk Hj.
  destruct (cancel_job_found d now jid uid job Hj)
    as (j1 & d1 & Hr1 & Hd1 & _ & Ha1 & Hid1 & _ & Hst1 & Hh1 & Hem1 & Hs1
        & Hc1).
  rewrite (Hk _ _ Hj) in Hd1, Hid1.
  assert (Hj1 : jobs d1 !! jid = Some j1)
    by (rewrite Hd1; apply lookup_insert_eq).
  destruct (cancel_job_found d1 now' jid uid' j1 Hj1)
    as (j2 & d2 & Hr2 & Hd2 & _ & Ha2 & _ & _ & Hst2 & Hh2 & Hem2 & Hs2
        & Hc2).
  destruct (cancel_job_row d1 now' jid uid' j1 Hj1)
    as (j2' & entry & Hr2' & Hsame & _).
  assert (j2' = j2) as -> by congruence.
  assert (Heq : j2 = j1).
  { apply Job_eq; try done; try congruence.
    rewrite Hc2, Hc1. done. }
  exists j1, d1, j2, d2. split_and!; try done.
  - rewrite Hd2, Hid1, Heq. by apply insert_id.
  - lia.
Qed.

Lemma cancel_job_twice_witness :
  ∃ j1 d1 j2 d2,
    JobService.cancel_job 120 1 7 db_pending = (inr j1, d1)
    ∧ JobService.cancel_job 130 1 8 d1 = (inr j2, d2)
    ∧ j2 = j1
    ∧ jobs d2 = jobs d1
    ∧ length (audit_logs d2) = S (S (length (audit_logs db_pending))).
Proof.
  apply (cancel_job_twice db_pending 120 130 1 7 8 job_pending).
  - by apply (bool_decide_unpack (jobs_keyed db_pending)).
  - reflexivity.
Defined.

(** ** From creation to success *)

(** X6: the normal run.  A job created against an active playbook and
    server with a free token, then given the worker's task id with status
    [pending] (as the create endpoint does), then reported [running] at
    [t2] and [success] at [t3], ends as the created row with status
    [success], that task id, no error message, [started_at = t2] and
    [completed_at = t3]. *)
Theorem create_dispatch_run_succeed d t0 t1 t2 t3 u p s uid ev h :
  jobs_keyed d →
  active_playbook d p = true → active_server d s = true →
  token_free d u → h ≠ "" →
  let jid := next_id (jobs d) in
  jobs (run_calls [Create t0 u p s uid ev;
                   ApplyStatus t1 jid pending None (Some h);
                   ApplyStatus t2 jid running None None;
                   ApplyStatus t3 jid success None None] d) !! jid
  = Some (Job.mk jid u p s uid success (Some h) (default [] ev) None
            (Some t2) (Some t3) t0).
Proof.
  intros Hk Hp Hs Hfree Hh jid.
  assert (Ht : truthy_str (Some h) = true).
  { simpl. by destruct (String.eqb_spec h ""). }
  destruct (create_job_cases t0 u p s uid ev d)
    as [(e & _ & [?|[?|?]] & _)|(job & d1 & Hr & _ & _ & _ & Hd1 & _ & _ & Hjob)];
    try congruence; try done.
  fold jid in Hjob.
  assert (Hstep : ∀ dd now st em hh row,
            jobs dd !! jid = Some row → Job.id row = jid →
            ∃ row', jobs (run_call (ApplyStatus now jid st em hh) dd) !! jid
                    = Some row'
              ∧ same_identity row row'
              ∧ Job.status row' = st
              ∧ Job.celery_task_id row'
                = (if truthy_str hh then hh else Job.celery_task_id row)
              ∧ Job.error_message row'
                = (if truthy_str em then em else Job.error_message row)
              ∧ Job.started_at row'
                = (if bool_decide (st = running ∧ Job.started_at row = None)
                   then Some now else Job.started_at row)
              ∧ Job.completed_at row'
                = (if is_terminal st then Some now
                   else Job.completed_at row)).
  { intros dd now st em hh row Hrow Hid.
    destruct (update_job_status_found dd now jid st em hh row Hrow)
      as (row' & Hrun & _ & _ & ? & ? & ? & ? & ?).
    destruct (update_job_status_row dd now jid st em hh row Hrow)
      as (row'' & Hrun' & Hsame).
    assert (row'' = row') as -> by congruence.
    exists row'. simpl. rewrite Hrun. unfold db_after. simpl.
    rewrite Hid, lookup_insert_eq. by split_and!. }
  assert (Hc : run_call (Create t0 u p s uid ev) d = d1)
    by (simpl; by rewrite Hr).
  change (jobs (run_call (ApplyStatus t3 jid success None None)
                  (run_call (ApplyStatus t2 jid running None None)
                     (run_call (ApplyStatus t1 jid pending None (Some h))
                        (run_call (Create t0 u p s uid ev) d)))) !! jid
          = Some (Job.mk jid u p s uid success (Some h) (default [] ev) None
                    (Some t2) (Some t3) t0)).
  rewrite Hc.
  set (job0 := Job.mk jid u p s uid pending None (default [] ev) None None
                 None t0) in *.
  assert (Hj0 : jobs d1 !! jid = Some job0).
  { rewrite Hd1, Hjob. simpl. apply lookup_insert_eq. }
  destruct (Hstep d1 t1 pending None (Some h) job0 Hj0 eq_refl)
    as (j1 & Hj1 & Hid1 & Hst1 & Hh1 & Hem1 & Hs1 & Hc1).
  rewrite Ht in Hh1.
  assert (Hi1 : Job.id j1 = jid) by (destruct Hid1 as [? _]; done).
  destruct (Hstep _ t2 running None None j1 Hj1 Hi1)
    as (j2 & Hj2 & Hid2 & Hst2 & Hh2 & Hem2 & Hs2 & Hc2).
  assert (Hi2 : Job.id j2 = jid) by (destruct Hid2 as [? _]; congruence).
  destruct (Hstep _ t3 success None None j2 Hj2 Hi2)
    as (j3 & Hj3 & Hid3 & Hst3 & Hh3 & Hem3 & Hs3 & Hc3).
  rewrite Hj3. f_equal.
  simpl in Hh1, Hem1, Hs1, Hc1, Hem2, Hem3, Hh2, Hh3.
  assert (Hs1' : Job.started_at j1 = None).
  { rewrite Hs1.
    first [done|by rewrite bool_decide_eq_false_2 by (intros [? _]; done)]. }
  assert (Hs2' : Job.started_at j2 = Some t2).
  { rewrite Hs2. by rewrite bool_decide_eq_true_2. }
  assert (Hs3' : Job.started_at j3 = Some t2).
  { rewrite Hs3. by rewrite bool_decide_eq_false_2 by (intros [? _]; done). }
  rewrite ?is_terminal_cases in Hc1, Hc2, Hc3.
  apply (Job_eq (Job.mk jid u p s uid success (Some h) (default [] ev) None
                   (Some t2) (Some t3) t0) j3); simpl;
    unfold same_identity in *; simpl in *; intuition congruence.
Qed.

Lemma create_dispatch_run_succeed_witness :
  jobs (run_calls [Create 100 "u-1" 1 1 7 None;
                   ApplyStatus 101 1 pending None (Some "w-1");
                   ApplyStatus 105 1 running None None;
                   ApplyStatus 110 1 success None None] db0) !! 1
  = Some job_done.
Proof.
  apply (create_dispatch_run_succeed db0 100 101 105 110 "u-1" 1 1 7 None
           "w-1").
  - by apply (bool_decide_unpack (jobs_keyed db0)).
  - reflexivity.
  - reflexivity.
  - by apply (bool_decide_unpack (token_free db0 "u-1")).
  - discriminate.
Defined.

(** ** The audit trail *)

Lemma create_job_audit now u p s uid ev d job d' :
  JobService.create_job now u p s uid ev d = (inr job, d') →
  ∃ entry, audit_logs d' = audit_logs d ++ [entry]
    ∧ AuditLog.user_id entry = uid
    ∧ AuditLog.action entry = "CREATE"
    ∧ AuditLog.resource_type entry = "job"
    ∧ AuditLog.resource_id entry = Job.id job.
Proof.
  unfold JobService.create_job. run_m.
  destruct (playbooks d !! p) as [pb|]; simpl; [|discriminate].
  destruct (Playbook.is_active pb); simpl; [|discriminate].
  destruct (servers d !! s) as [sv|]; simpl; [|discriminate].
  destruct (Server.is_active sv); simpl; [|discriminate].
  unfold session_add_job. simpl. case_bool_decide; simpl; [discriminate|].
  intros [= <- <-]. simpl. by eexists.
Qed.

(** X7: the audit table only grows, by at most one entry per call.  A
    [create_job] that returns appends one ["CREATE"] entry and a
    [cancel_job] that returns appends one ["CANCEL"] entry, each for
    resource type ["job"], the job's primary key and the calling user; a
    call that raises appends nothing, and [update_job_status] never
    appends: status changes leave no audit entry. *)
Theorem audit_trail_grows c d :
  ∃ new, audit_logs (run_call c d) = audit_logs d ++ new
    ∧ match c with
      | Create now u p s uid ev =>
        match outcome (JobService.create_job now u p s uid ev d) with
        | inr job =>
          ∃ entry, new = [entry]
            ∧ AuditLog.user_id entry = uid
            ∧ AuditLog.action entry = "CREATE"
            ∧ AuditLog.resource_type entry = "job"
            ∧ AuditLog.resource_id entry = Job.id job
        | inl _ => new = []
        end
      | ApplyStatus _ _ _ _ _ => new = []
      | Cancel now jid uid =>
        match outcome (JobService.cancel_job now jid uid d) with
        | inr job =>
          ∃ entry, new = [entry]
            ∧ AuditLog.user_id entry = uid
            ∧ AuditLog.action entry = "CANCEL"
            ∧ AuditLog.resource_type entry = "job"
            ∧ AuditLog.resource_id entry = Job.id job
        | inl _ => new = []
        end
      end.
Proof.
  destruct c as [now u p s uid ev|now jid st em h|now jid uid]; simpl.
  - destruct (create_job_cases now u p s uid ev d)
      as [(e & Hr & _)|(job & d' & Hr & _)].
    + rewrite Hr. exists []. unfold db_after, outcome. simpl.
      by rewrite app_nil_r.
    + destruct (create_job_audit _ _ _ _ _ _ _ _ _ Hr)
        as (entry & Ha & Hu & Hact & Hty & Hid).
      rewrite Hr. exists [entry]. unfold db_after, outcome. simpl.
      split; [done|]. by exists entry.
  - exists []. rewrite app_nil_r. split; [|done].
    destruct (jobs d !! jid) as [job|] eqn:Hj.
    + by destruct (update_job_status_found d now jid st em h job Hj)
        as (job' & -> & _).
    + by rewrite update_job_status_missing.
  - destruct (jobs d !! jid) as [job|] eqn:Hj.
    + destruct (cancel_job_row d now jid uid job Hj)
        as (job' & entry & -> & Hsame & Hu & Hact & Hty & Hid).
      exists [entry]. unfold db_after, outcome. simpl. split; [done|].
      exists entry. split_and!; try done.
      destruct Hsame as [-> _]. done.
    + rewrite cancel_job_missing by done. exists [].
      unfold db_after, outcome. simpl. by rewrite app_nil_r.
Qed.

(** ** Tokens and look-up *)

Lemma run_call_tokens_unique c d :
  jobs_keyed d → tokens_unique d → tokens_unique (run_call c d).
Proof.
  intros Hk Hu k1 k2 j1 j2 H1 H2 Heq.
  pose proof (run_call_step c d k1 Hk) as S1.
  pose proof (run_call_step c d k2 Hk) as S2.
  destruct (jobs d !! k1) as [o1|] eqn:O1, (jobs d !! k2) as [o2|] eqn:O2.
  - destruct S1 as (j1' & H1' & (_ & T1 & _) & _).
    destruct S2 as (j2' & H2' & (_ & T2 & _) & _).
    apply (Hu k1 k2 o1 o2 O1 O2). congruence.
  - destruct S1 as (j1' & H1' & (_ & T1 & _) & _).
    destruct S2 as [?|(now & u & p & s & uid & ev & _ & Hfree & H2')];
      [congruence|].
    assert (Job.job_id j2 = u) by (rewrite H2' in H2; by injection H2 as <-).
    destruct (Hfree k1 o1 O1). congruence.
  - destruct S2 as (j2' & H2' & (_ & T2 & _) & _).
    destruct S1 as [?|(now & u & p & s & uid & ev & _ & Hfree & H1')];
      [congruence|].
    assert (Job.job_id j1 = u) by (rewrite H1' in H1; by injection H1 as <-).
    destruct (Hfree k2 o2 O2). congruence.
  - destruct S1 as [?|(now & u & p & s & uid & ev & Hc1 & _ & H1')];
      [congruence|].
    destruct S2 as [?|(now' & u' & p' & s' & uid' & ev' & Hc2 & _ & H2')];
      [congruence|].
    rewrite Hc1 in *. simpl in H1, H2.
    destruct (create_job_cases now u p s uid ev d)
      as [(e & Hr & _)|(job & d' & Hr & _ & _ & _ & Hd' & _)];
      rewrite Hr in H1, H2; unfold db_after in H1, H2; simpl in H1, H2;
      [congruence|].
    rewrite Hd', lookup_insert in H1, H2.
    destruct (decide (Job.id job = k1)), (decide (Job.id job = k2));
      congruence.
Qed.

Lemma run_calls_tokens_unique cs d :
  jobs d = ∅ → tokens_unique (run_calls cs d).
Proof.
  intros Hd. induction cs as [|c cs IH] using rev_ind.
  - intros k1 k2 j1 j2 H1. simpl in H1. by rewrite Hd, lookup_empty in H1.
  - rewrite run_calls_snoc. apply run_call_tokens_unique; [|done].
    by apply run_calls_keyed.
Qed.

Lemma get_job_by_uuid_result u d :
  JobService.get_job_by_uuid u d
  = (inr (head (filter (λ j, Job.job_id j = u) (Job_query d))), d).
Proof. reflexivity. Qed.

Lemma Job_query_elem j d :
  j ∈ Job_query d ↔ ∃ k, jobs d !! k = Some j.
Proof.
  unfold Job_query. rewrite list_elem_of_fmap. split.
  - intros ([k j'] & -> & Hin). exists k. by apply elem_of_map_to_list.
  - intros (k & Hk). exists (k, j). split; [done|].
    by apply elem_of_map_to_list.
Qed.

(** X8: tokens identify jobs.  In a database built from an empty [jobs]
    table by [create_job], [update_job_status] and [cancel_job] calls,
    every stored job is what [get_job_by_uuid] returns for its token and
    what [get_job] returns for its primary key; and whatever
    [get_job_by_uuid] returns carries the token asked for. *)
Theorem get_job_by_uuid_finds_the_job cs d0 :
  jobs d0 = ∅ →
  let d := run_calls cs d0 in
  (∀ k j, jobs d !! k = Some j →
     JobService.get_job_by_uuid (Job.job_id j) d = (inr (Some j), d)
     ∧ JobService.get_job (Job.id j) d = (inr (Some j), d))
  ∧ (∀ u j, outcome (JobService.get_job_by_uuid u d) = inr (Some j) →
       Job.job_id j = u ∧ jobs d !! Job.id j = Some j).
Proof.
  intros Hd d.
  pose proof (run_calls_keyed cs d0 Hd) as Hk.
  pose proof (run_calls_tokens_unique cs d0 Hd) as Hu.
  fold d in Hk, Hu. clearbody d.
  assert (Hhead : ∀ u j,
            head (filter (λ j, Job.job_id j = u) (Job_query d)) = Some j →
            Job.job_id j = u ∧ ∃ k, jobs d !! k = Some j).
  { intros u j Hh. apply head_Some_elem_of in Hh.
    apply list_elem_of_filter in Hh as [Hju Hin].
    split; [done|]. by apply Job_query_elem. }
  split.
  - intros k j Hj. split.
    + rewrite get_job_by_uuid_result. do 2 f_equal.
      destruct (head (filter (λ j0, Job.job_id j0 = Job.job_id j)
                        (Job_query d))) as [j0|] eqn:Hh.
      * destruct (Hhead _ _ Hh) as [Htok (k0 & Hk0)].
        assert (k0 = k) as -> by (by apply (Hu k0 k j0 j)).
        congruence.
      * apply head_None in Hh.
        assert (Hin : j ∈ filter (λ j0, Job.job_id j0 = Job.job_id j)
                          (Job_query d)).
        { apply list_elem_of_filter. split; [done|].
          apply Job_query_elem. by exists k. }
        rewrite Hh in Hin. by apply elem_of_nil in Hin.
    + unfold JobService.get_job, Job_query_get, query.
      by rewrite (Hk _ _ Hj), Hj.
  - intros u j Hout. rewrite get_job_by_uuid_result in Hout.
    unfold outcome in Hout. simpl in Hout. injection Hout as Hh.
    destruct (Hhead _ _ Hh) as [Htok (k & Hj)]. split; [done|].
    by rewrite (Hk _ _ Hj).
Qed.

Lemma get_job_by_uuid_finds_the_job_witness :
  let d := run_calls [Create 100 "u-1" 1 1 7 None;
                      Create 101 "u-2" 1 1 8 None;
                      ApplyStatus 105 2 running None None] db0 in
  JobService.get_job_by_uuid "u-2" d
  = (inr (Some (Job.mk 2 "u-2" 1 1 8 running None [] None (Some 105) None
                  101)), d).
Proof.
  apply (proj1 (get_job_by_uuid_finds_the_job
                  [Create 100 "u-1" 1 1 7 None;
                   Create 101 "u-2" 1 1 8 None;
                   ApplyStatus 105 2 running None None] db0 eq_refl) 2
           (Job.mk 2 "u-2" 1 1 8 running None [] None (Some 105) None 101)).
  vm_compute. reflexivity.
Defined.

(** ** More on the log store *)

Lemma stored_lines_add_job_log now a n c lvl b d :
  stored_lines b (db_after (JobService.add_job_log now a n c lvl d))
  = stored_lines b d
    ++ (if decide (a = b)
        then [JobLog.mk (1 + Z.of_nat (length (job_logs d))) a n c
                (Some (default "INFO" lvl)) now]
        else []).
Proof.
  rewrite add_job_log_row. unfold stored_lines, db_after. simpl.
  by rewrite filter_app.
Qed.

Lemma get_job_logs_count_result jid d :
  JobService.get_job_logs_count jid d
  = (inr (Z.of_nat (length (stored_lines jid d))), d).
Proof. reflexivity. Qed.

(** X9: [get_job_logs_count] is the number of lines that a read without
    [start_line] and [limit] returns, and each [add_job_log] raises the
    count of its own job by exactly one and the count of no other job. *)
Theorem get_job_logs_count_counts_lines :
  (∀ jid d,
     ∃ rows, JobService.get_job_logs jid None None d = (inr rows, d)
       ∧ JobService.get_job_logs_count jid d
         = (inr (Z.of_nat (length rows)), d))
  ∧ (∀ now a n c lvl b d,
       ∃ before after,
         JobService.get_job_logs_count b d = (inr before, d)
         ∧ outcome (JobService.get_job_logs_count b
                      (db_after (JobService.add_job_log now a n c lvl d)))
           = inr after
         ∧ after = before + (if decide (a = b) then 1 else 0)).
Proof.
  split.
  - intros jid d. rewrite get_job_logs_result. simpl. eexists.
    split; [reflexivity|].
    rewrite get_job_logs_count_result.
    do 3 f_equal. rewrite (filter_all (from_line None)) by done.
    by rewrite order_by_line_number_perm.
  - intros now a n c lvl b d. rewrite !get_job_logs_count_result.
    unfold outcome. cbn [fst].
    rewrite stored_lines_add_job_log, length_app.
    eexists _, _. split_and!; [reflexivity..|].
    destruct (decide (a = b)); simpl; lia.
Qed.

Lemma add_job_logs_bulk_fold now jid logs d :
  foldl (λ d '(line_number, content, log_level),
           (session_add_job_log
              (JobLog.mk 0 jid line_number content
                 (Some (default "INFO" log_level)) now) d).2) d logs
  = append_all jid ((λ l, (now, l.1.1, l.1.2, l.2)) <$> logs) d.
Proof.
  revert d. induction logs as [|[[n c] lvl] logs IH]; intros d; [done|].
  simpl. by rewrite IH.
Qed.

(** X10: [add_job_logs_bulk] stores what one [add_job_log] per entry, in
    list order, would store: the same rows in the same order, so the
    numbers of the job become the earlier ones followed by the numbers of
    the list.  An empty list changes nothing. *)
Theorem add_job_logs_bulk_is_repeated_append now jid logs d :
  JobService.add_job_logs_bulk now jid logs d
  = (inr tt, append_all jid ((λ l, (now, l.1.1, l.1.2, l.2)) <$> logs) d)
  ∧ line_numbers jid (db_after (JobService.add_job_logs_bulk now jid logs d))
    = line_numbers jid d ++ ((λ l, l.1.1) <$> logs)
  ∧ JobService.add_job_logs_bulk now jid [] d = (inr tt, d).
Proof.
  assert (Hrun : JobService.add_job_logs_bulk now jid logs d
                 = (inr tt, append_all jid
                      ((λ l, (now, l.1.1, l.1.2, l.2)) <$> logs) d)).
  { unfold JobService.add_job_logs_bulk, modify.
    by rewrite add_job_logs_bulk_fold. }
  split_and!; [done| |done].
  rewrite Hrun. unfold db_after. simpl.
  rewrite append_all_line_numbers. f_equal.
  rewrite <- list_fmap_compose. by apply list_fmap_ext.
Qed.

Lemma strictly_numbered_inj (l : list JobLog.t) x y :
  StronglySorted Z.lt (JobLog.line_number <$> l) →
  x ∈ l → y ∈ l → JobLog.line_number x = JobLog.line_number y → x = y.
Proof.
  induction l as [|z l IH]; intros Hs Hx Hy Heq;
    [by apply elem_of_nil in Hx|].
  simpl in Hs. apply StronglySorted_inv in Hs as [Hs Hz].
  rewrite Forall_forall in Hz.
  assert (Hlt : ∀ w, w ∈ l → JobLog.line_number z < JobLog.line_number w).
  { intros w Hw. apply Hz. apply list_elem_of_fmap. by exists w. }
  apply elem_of_cons in Hx as [->|Hx]; apply elem_of_cons in Hy as [->|Hy].
  - done.
  - specialize (Hlt y Hy). lia.
  - specialize (Hlt x Hx). lia.
  - by apply IH.
Qed.

Lemma strictly_numbered_sorted (l : list JobLog.t) :
  StronglySorted Z.lt (JobLog.line_number <$> l) →
  StronglySorted JobService.line_le l.
Proof.
  induction l as [|z l IH]; intros Hs; [constructor|].
  simpl in Hs. apply StronglySorted_inv in Hs as [Hs Hz].
  constructor; [by apply IH|].
  rewrite Forall_forall in Hz. apply Forall_forall. intros w Hw.
  unfold JobService.line_le.
  assert (JobLog.line_number z < JobLog.line_number w); [|lia].
  apply Hz. apply list_elem_of_fmap. by exists w.
Qed.

Lemma order_by_line_number_sorted_input (l : list JobLog.t) :
  StronglySorted Z.lt (JobLog.line_number <$> l) →
  JobService.order_by_line_number l = l.
Proof.
  intros Hs.
  apply (StronglySorted_unique_strong JobService.line_le).
  - intros x y Hx Hy Hxy Hyx.
    rewrite order_by_line_number_perm in Hx.
    apply (strictly_numbered_inj l); try done.
    unfold JobService.line_le in *. lia.
  - apply order_by_line_number_sorted.
  - by apply strictly_numbered_sorted.
  - apply order_by_line_number_perm.
Qed.

(** X11: when the numbers stored for a job increase strictly in the order
    the lines were appended, reading returns the lines in append order:
    the appended lines that meet the lower bound, cut to the first [limit]
    of them for a positive limit. *)
Theorem get_job_logs_keeps_append_order jid start_line limit d :
  StronglySorted Z.lt (line_numbers jid d) →
  (∀ n, limit = Some n → 0 ≤ n) →
  JobService.get_job_logs jid start_line limit d
  = (inr (let lines := filter (from_line start_line) (stored_lines jid d) in
          if truthy_int limit then take (Z.to_nat (default 0 limit)) lines
          else lines), d).
Proof.
  intros Hs Hlim. rewrite get_job_logs_result.
  rewrite order_by_line_number_sorted_input by done. cbv zeta.
  destruct limit as [n|]; simpl; [|done].
  destruct (Z.eqb_spec n 0); simpl; [done|].
  unfold JobService.limit_all. specialize (Hlim n eq_refl).
  by destruct (Z.ltb_spec n 0); [lia|].
Qed.

Lemma get_job_logs_keeps_append_order_witness :
  JobService.get_job_logs 1 (Some 1) (Some 5) db_logged
  = (inr (let lines := filter (from_line (Some 1)) (stored_lines 1 db_logged)
          in if truthy_int (Some 5)
             then take (Z.to_nat (default 0 (Some 5))) lines
             else lines), db_logged).
Proof.
  apply (get_job_logs_keeps_append_order 1 (Some 1) (Some 5) db_logged).
  - apply (bool_decide_unpack
             (StronglySorted Z.lt (line_numbers 1 db_logged))).
    by vm_compute.
  - intros n [= <-]. lia.
Defined.

(** X12: log lines of different jobs do not mix.  Appending a line to one
    job leaves every read and the count of any other job as they were. *)
Theorem add_job_log_leaves_other_jobs now a n c lvl b start_line limit d :
  a ≠ b →
  let d' := db_after (JobService.add_job_log now a n c lvl d) in
  outcome (JobService.get_job_logs b start_line limit d')
    = outcome (JobService.get_job_logs b start_line limit d)
  ∧ outcome (JobService.get_job_logs_count b d')
    = outcome (JobService.get_job_logs_count b d).
Proof.
  intros Hne d'.
  assert (Hsame : stored_lines b d' = stored_lines b d).
  { unfold d'. rewrite stored_lines_add_job_log.
    destruct (decide (a = b)); [done|]. by rewrite app_nil_r. }
  split.
  - rewrite !get_job_logs_result, Hsame. cbv zeta.
    destruct (truthy_int limit); [|done].
    unfold JobService.limit_all. by destruct (default 0 limit <? 0).
  - by rewrite !get_job_logs_count_result, Hsame.
Qed.

Lemma add_job_log_leaves_other_jobs_witness :
  outcome (JobService.get_job_logs 1 None None
             (db_after (JobService.add_job_log 300 2 0 "other" None
                          db_logged)))
    = outcome (JobService.get_job_logs 1 None None db_logged)
  ∧ outcome (JobService.get_job_logs_count 1
               (db_after (JobService.add_job_log 300 2 0 "other" None
                            db_logged)))
    = outcome (JobService.get_job_logs_count 1 db_logged).
Proof.
  apply (add_job_log_leaves_other_jobs 300 2 0 "other" None 1 None None
           db_logged).
  discriminate.
Defined.

(** ** More on the statistics *)

(** X13: the rate that [get_job_statistics] returns lies between 0 and
    100.  It is 100 whenever there are jobs in scope and none of them has
    failed, whether or not any has succeeded, and it is 0 when all of them
    have failed. *)
Theorem success_rate_range user_id d :
  ∃ s, JobService.get_job_statistics user_id d = (inr s, d)
    ∧ 0 ≤ Stats.failed s ≤ Stats.total s
    ∧ (0 <= Stats.success_rate s ∧ Stats.success_rate s <= 100)%Q
    ∧ (0 < Stats.total s → Stats.failed s = 0 →
       Stats.success_rate s = 100%Q)
    ∧ (0 < Stats.total s → Stats.failed s = Stats.total s →
       Stats.success_rate s = 0%Q).
Proof.
  unfold JobService.get_job_statistics. run_m. rewrite scoped_rows.
  set (rows := filter (scoped user_id) (Job_query d)).
  eexists. split; [reflexivity|]. simpl.
  set (total := Z.of_nat (length rows)).
  set (nfailed := JobService.count_status failed rows).
  assert (Hf : 0 ≤ nfailed ≤ total).
  { pose proof (count_status_partition rows).
    pose proof (count_status_nonneg pending rows).
    pose proof (count_status_nonneg running rows).
    pose proof (count_status_nonneg success rows).
    pose proof (count_status_nonneg failed rows).
    pose proof (count_status_nonneg cancelled rows).
    unfold total, nfailed. lia. }
  assert (Hrange : ∀ k : Z, 0 ≤ k ≤ 10000 →
            (0 <= inject_Z k / inject_Z 100
             ∧ inject_Z k / inject_Z 100 <= inject_Z 100)%Q).
  { intros k Hk. split.
    - apply Qle_shift_div_l; [done|]. rewrite Qmult_0_l.
      change 0%Q with (inject_Z 0). rewrite <- Zle_Qle. lia.
    - apply Qle_shift_div_r; [done|]. rewrite <- inject_Z_mult.
      rewrite <- Zle_Qle. lia. }
  split_and!; try lia.
  - destruct (Z.ltb_spec 0 total) as [Hpos|]; [|done].
    destruct (success_rate_steps total nfailed Hpos Hf)
      as (k & Hk & -> & _).
    apply fl_nonneg. by apply Hrange.
  - destruct (Z.ltb_spec 0 total) as [Hpos|]; [|done].
    destruct (success_rate_steps total nfailed Hpos Hf)
      as (k & Hk & -> & _).
    apply (fl_le_int _ 100); try done; by apply Hrange.
  - intros Hpos Hzero. destruct (Z.ltb_spec 0 total); [|lia].
    rewrite Hzero, Z.sub_0_r. unfold int_truediv.
    rewrite (fl_Qeq (inject_Z total / inject_Z total) 1); [done|].
    apply Qmult_inv_r. intros H0.
    assert (inject_Z 0 < inject_Z total)%Q as Hlt by (by rewrite <- Zlt_Qlt).
    rewrite H0 in Hlt. by apply Qlt_irrefl in Hlt.
  - intros Hpos Hall. destruct (Z.ltb_spec 0 total); [|lia].
    rewrite Hall, Z.sub_diag. unfold int_truediv.
    rewrite (fl_Qeq (inject_Z 0 / inject_Z total) 0); [done|].
    unfold Qdiv. change (inject_Z 0) with 0%Q. by rewrite Qmult_0_l.
Qed.

Lemma Job_query_insert_fresh d d' k job :
  jobs d' = <[k := job]> (jobs d) → jobs d !! k = None →
  Job_query d' ≡ₚ job :: Job_query d.
Proof.
  intros Hd' Hk. unfold Job_query. rewrite Hd'.
  by rewrite map_to_list_insert.
Qed.

Lemma count_status_cons st job rows :
  JobService.count_status st (job :: rows)
  = JobService.count_status st rows
    + (if decide (Job.status job = st) then 1 else 0).
Proof.
  unfold JobService.count_status. rewrite filter_cons.
  destruct (decide (Job.status job = st)); simpl; lia.
Qed.

Lemma count_status_perm st rows rows' :
  rows ≡ₚ rows' →
  JobService.count_status st rows = JobService.count_status st rows'.
Proof.
  intros Hp. unfold JobService.count_status. f_equal.
  by apply Permutation_length, filter_Permutation.
Qed.

(** X14: a job that [create_job] has just stored counts as pending: the
    statistics over all jobs taken after the call show one more job in
    total and one more pending job than before, and the same numbers of
    running, succeeded, failed and cancelled jobs. *)
Theorem create_job_counts_as_pending now u p s uid ev d job d' :
  JobService.create_job now u p s uid ev d = (inr job, d') →
  ∃ s0 s1,
    JobService.get_job_statistics None d = (inr s0, d)
    ∧ JobService.get_job_statistics None d' = (inr s1, d')
    ∧ Stats.total s1 = Stats.total s0 + 1
    ∧ Stats.pending s1 = Stats.pending s0 + 1
    ∧ Stats.running s1 = Stats.running s0
    ∧ Stats.success s1 = Stats.success s0
    ∧ Stats.failed s1 = Stats.failed s0
    ∧ Stats.cancelled s1 = Stats.cancelled s0.
Proof.
  intros Hr.
  destruct (create_job_cases now u p s uid ev d)
    as [(e & He & _)|(job' & d'' & Hr' & _ & _ & _ & Hd' & Hnew & _ & Hjob)];
    [congruence|].
  assert (job' = job) as -> by congruence.
  assert (d'' = d') as -> by congruence.
  pose proof (Job_query_insert_fresh d d' _ job Hd' Hnew) as Hperm.
  assert (Hst : Job.status job = pending) by (by rewrite Hjob).
  unfold JobService.get_job_statistics. run_m.
  eexists _, _. split_and!; [reflexivity..| | | | | |]; simpl.
  - rewrite (Permutation_length Hperm). simpl. lia.
  - rewrite (count_status_perm _ _ _ Hperm), count_status_cons, Hst.
    by rewrite decide_True.
  - rewrite (count_status_perm _ _ _ Hperm), count_status_cons, Hst.
    rewrite decide_False by done. lia.
  - rewrite (count_status_perm _ _ _ Hperm), count_status_cons, Hst.
    rewrite decide_False by done. lia.
  - rewrite (count_status_perm _ _ _ Hperm), count_status_cons, Hst.
    rewrite decide_False by done. lia.
  - rewrite (count_status_perm _ _ _ Hperm), count_status_cons, Hst.
    rewrite decide_False by done. lia.
Qed.

Lemma create_job_counts_as_pending_witness :
  let d' := db_after (JobService.create_job 100 "u-1" 1 1 7 None db0) in
  ∃ s0 s1,
    JobService.get_job_statistics None db0 = (inr s0, db0)
    ∧ JobService.get_job_statistics None d' = (inr s1, d')
    ∧ Stats.total s1 = Stats.total s0 + 1
    ∧ Stats.pending s1 = Stats.pending s0 + 1
    ∧ Stats.running s1 = Stats.running s0
    ∧ Stats.success s1 = Stats.success s0
    ∧ Stats.failed s1 = Stats.failed s0
    ∧ Stats.cancelled s1 = Stats.cancelled s0.
Proof.
  apply (create_job_counts_as_pending 100 "u-1" 1 1 7 None db0 job_pending).
  reflexivity.
Defined.

(** ** Tickets *)

Ltac run_t :=
  unfold mbind, mret, MT_bind, MT_ret, raise_t, lift, Job_query_get, query,
    JobService._create_audit_log, session_add_audit_log; simpl.

Lemma ticket_token_free_rows s u :
  ticket_token_free s u
  ↔ ¬ Exists (λ r, Ticket.ticket_id r = u) (Ticket_query s).
Proof.
  unfold ticket_token_free, Ticket_query. rewrite Exists_exists. split.
  - intros Hf (t & Hin & Hu).
    apply list_elem_of_fmap in Hin as ([k t'] & -> & Hin).
    apply elem_of_map_to_list in Hin. by apply (Hf k t').
  - intros Hn k t Ht Hu. apply Hn. exists t. split; [|done].
    apply list_elem_of_fmap. exists (k, t). split; [done|].
    by apply elem_of_map_to_list.
Qed.

(** X15: [create_ticket_from_job] for a job id that does not exist raises
    [ValueError] and stores nothing: no ticket, no audit entry.  When the
    job exists but the ticket token is already taken, the unique index
    rejects the row and again nothing is stored. *)
Theorem create_ticket_from_job_errors now u jid uid title descr prio s :
  (jobs (base s) !! jid = None →
   JobService.create_ticket_from_job now u jid uid title descr prio s
   = (inl (ValueError ("Job with ID " +:+ pretty jid +:+ " not found")), s))
  ∧ (is_Some (jobs (base s) !! jid) → ¬ ticket_token_free s u →
     ∃ msg,
       JobService.create_ticket_from_job now u jid uid title descr prio s
       = (inl (IntegrityError msg), s)).
Proof.
  destruct s as [d ts]. unfold JobService.create_ticket_from_job. run_t.
  split.
  - by intros ->.
  - intros [job ->] Htaken. unfold session_add_ticket. simpl.
    rewrite ticket_token_free_rows in Htaken.
    rewrite bool_decide_eq_true_2; [by eexists|].
    by destruct (decide (Exists (λ r, Ticket.ticket_id r = u)
                           (Ticket_query (mkStore d ts)))).
Qed.

Lemma create_ticket_from_job_errors_witness :
  JobService.create_ticket_from_job 200 "t-1" 9 7 "help" None None store_done
  = (inl (ValueError ("Job with ID " +:+ pretty 9 +:+ " not found")),
     store_done).
Proof.
  apply (proj1 (create_ticket_from_job_errors 200 "t-1" 9 7 "help" None None
                  store_done)).
  reflexivity.
Defined.

(** X16: [create_ticket_from_job] for a job that exists and a free token
    succeeds whatever the status of the job (a succeeded or running job
    too).  It stores one ticket under a fresh primary key, with status
    [open], the given priority or [medium], the job and the creator as
    given, and the given description or, when that is absent or empty, the
    text ["Auto-generated ticket for failed job <token>"].  The [jobs] and
    log tables are untouched and one ["CREATE_TICKET"] audit entry for the
    job is appended. *)
Theorem create_ticket_from_job_stores_open_ticket
    now u jid uid title descr prio s job :
  jobs (base s) !! jid = Some job → ticket_token_free s u →
  ∃ t s' entry,
    JobService.create_ticket_from_job now u jid uid title descr prio s
      = (inr t, s')
    ∧ tickets s !! Ticket.id t = None
    ∧ tickets s' = <[Ticket.id t := t]> (tickets s)
    ∧ Ticket.ticket_id t = u
    ∧ Ticket.job_id t = jid
    ∧ Ticket.created_by t = uid
    ∧ Ticket.title t = title
    ∧ Ticket.status t = open
    ∧ Ticket.priority t = default medium prio
    ∧ Ticket.description t
      = (if truthy_str descr then descr
         else Some ("Auto-generated ticket for failed job "
                    +:+ Job.job_id job))
    ∧ jobs (base s') = jobs (base s)
    ∧ job_logs (base s') = job_logs (base s)
    ∧ audit_logs (base s') = audit_logs (base s) ++ [entry]
    ∧ AuditLog.action entry = "CREATE_TICKET"
    ∧ AuditLog.resource_type entry = "job"
    ∧ AuditLog.resource_id entry = Job.id job
    ∧ AuditLog.user_id entry = uid.
Proof.
  intros Hj Hfree. destruct s as [d ts]. simpl in Hj.
  unfold JobService.create_ticket_from_job. run_t. rewrite Hj.
  unfold session_add_ticket. simpl.
  rewrite ticket_token_free_rows in Hfree.
  rewrite bool_decide_eq_false_2 by done. simpl.
  eexists _, _, _. split; [reflexivity|]. simpl.
  split_and!; try done. apply next_id_fresh.
Qed.

Lemma create_ticket_from_job_stores_open_ticket_witness :
  ∃ t s' entry,
    JobService.create_ticket_from_job 200 "t-1" 1 7 "help" (Some "") None
      store_done = (inr t, s')
    ∧ tickets store_done !! Ticket.id t = None
    ∧ tickets s' = <[Ticket.id t := t]> (tickets store_done)
    ∧ Ticket.ticket_id t = "t-1"
    ∧ Ticket.job_id t = 1
    ∧ Ticket.created_by t = 7
    ∧ Ticket.title t = "help"
    ∧ Ticket.status t = open
    ∧ Ticket.priority t = medium
    ∧ Ticket.description t
      = Some "Auto-generated ticket for failed job u-1"
    ∧ jobs (base s') = jobs (base store_done)
    ∧ job_logs (base s') = job_logs (base store_done)
    ∧ audit_logs (base s') = audit_logs (base store_done) ++ [entry]
    ∧ AuditLog.action entry = "CREATE_TICKET"
    ∧ AuditLog.resource_type entry = "job"
    ∧ AuditLog.resource_id entry = 1
    ∧ AuditLog.user_id entry = 7.
Proof.
  apply (create_ticket_from_job_stores_open_ticket 200 "t-1" 1 7 "help"
           (Some "") None store_done job_done).
  - reflexivity.
  - by apply (bool_decide_unpack (ticket_token_free store_done "t-1")).
Defined.

(** ** Roles *)

Lemma role_level r :
  AuthService.role_hierarchy !! r
  = (if decide ("user" = r) then Some 1
     else if decide ("admin" = r) then Some 2
     else if decide ("super_admin" = r) then Some 3
     else None).
Proof.
  unfold AuthService.role_hierarchy.
  by rewrite !lookup_insert, lookup_empty.
Qed.

(** X17: [check_permission] grants exactly this: the required role
    ["user"] to the roles ["user"], ["admin"] and ["super_admin"], the
    required role ["admin"] to ["admin"] and ["super_admin"], and the
    required role ["super_admin"] to ["super_admin"] alone.  A required
    role outside the hierarchy is granted to nobody, and a user whose role
    is outside it (such as ["viewer"]) is granted nothing. *)
Theorem check_permission_table user required :
  AuthService.check_permission user required = true
  ↔ (required = "user"
     ∧ User.role user ∈ ["user"; "admin"; "super_admin"])
    ∨ (required = "admin" ∧ User.role user ∈ ["admin"; "super_admin"])
    ∨ (required = "super_admin" ∧ User.role user = "super_admin").
Proof.
  unfold AuthService.check_permission. rewrite !role_level.
  rewrite Z.geb_le.
  destruct (decide ("user" = User.role user)) as [<-|Hu1];
    [|destruct (decide ("admin" = User.role user)) as [<-|Hu2];
      [|destruct (decide ("super_admin" = User.role user)) as [<-|Hu3]]];
    (destruct (decide ("user" = required)) as [<-|Hr1];
     [|destruct (decide ("admin" = required)) as [<-|Hr2];
       [|destruct (decide ("super_admin" = required)) as [<-|Hr3]]]);
    simpl; (split; [intros Hle; try lia|intros Hor]);
    rewrite ?elem_of_cons, ?elem_of_nil in *;
    try (intuition (congruence || lia)); try lia.
Qed.

(** X18: permissions follow the hierarchy.  If a user is granted the
    required role [r], then the user is granted every role that a holder
    of role [r] is granted. *)
Theorem check_permission_transitive user r r' :
  AuthService.check_permission user r = true →
  AuthService.check_permission (user_of_role r) r' = true →
  AuthService.check_permission user r' = true.
Proof.
  unfold AuthService.check_permission, user_of_role. simpl.
  rewrite !role_level, !Z.geb_le.
  destruct (decide ("user" = User.role user));
    destruct (decide ("admin" = User.role user));
    destruct (decide ("super_admin" = User.role user));
    destruct (decide ("user" = r)); destruct (decide ("admin" = r));
    destruct (decide ("super_admin" = r));
    destruct (decide ("user" = r')); destruct (decide ("admin" = r'));
    destruct (decide ("super_admin" = r')); simpl; lia.
Qed.

Lemma check_permission_transitive_witness :
  AuthService.check_permission (user_of_role "super_admin") "user" = true.
Proof.
  apply (check_permission_transitive (user_of_role "super_admin") "admin"
           "user"); reflexivity.
Defined.
